(** * TransNetV2 inference controller (inference/transnetv2.py)

    A shallow embedding of the sliding-window controller of
    [inference/transnetv2.py]: the window generator [input_iterator], the
    scoring adapter [predict_raw], the stitching loop of [predict_frames],
    the streaming emitter ([emit_topic], [find_frames_crossing_threshold])
    and the offline scene extractor [predictions_to_scenes].

    Conventions.
    - Python integers (frame indices, counters) are [Z]; lengths and list
      positions are [nat].
    - A score is a [Q]: every finite float is the rational it denotes, and
      [0.75] is exactly representable, so [predictions > thresh] is the
      exact rational comparison.  NaN scores are not modelled.
    - An exception is a value of [exn]; a call that can raise returns
      [exn + A].
    - [gap + i] and [cur_frame + 1] are 64-bit numpy integers in the
      source and are added in [Z] here; [predict_frames] only passes
      [50 * window index] as [gap], and a statement about an arbitrary
      [gap] keeps it within the 64-bit range. *)

From Equations Require Import Equations.
From Stdlib Require Import String ZArith QArith List Bool Lia Arith.
Import ListNotations.

Open Scope Z_scope.

(** ** Exceptions and module constants *)

Inductive exn : Set :=
| AssertionError
| IndexError
| NameError
| ValueError
| FfmpegError.

(** [thresh = 0.75] *)
Definition thresh : Q := 3 # 4.

(** [p > t] on scores. *)
Definition gt (p t : Q) : bool := negb (Qle_bool p t).

(** ** Scene extractor: [TransNetV2.predictions_to_scenes] *)

Module Scenes.

(** The local variables of [predictions_to_scenes].  [i] is unbound until
    the loop body has run once. *)
Record locals : Set := mkLocals {
  t : Z;
  t_prev : Z;
  start : Z;
  i : option Z;
  scenes : list (Z * Z)
}.

(** [(predictions > threshold).astype(np.uint8)] *)
Definition astype_uint8 (b : bool) : Z := if b then 1 else 0.

Definition binarize (threshold : Q) (predictions : list Q) : list Z :=
  map (fun p => astype_uint8 (gt p threshold)) predictions.

(** [enumerate(predictions)], counting from [k]. *)
Fixpoint enumerate_from {A : Type} (k : Z) (l : list A) : list (Z * A) :=
  match l with
  | [] => []
  | x :: r => (k, x) :: enumerate_from (k + 1) r
  end.

Definition enumerate {A : Type} (l : list A) : list (Z * A) :=
  enumerate_from 0 l.

(** One iteration of [for i, t in enumerate(predictions)]. *)
Definition body (s : locals) (it : Z * Z) : locals :=
  let '(iv, tv) := it in
  let start1 :=
    if (t_prev s =? 1) && (tv =? 0) then iv else start s in
  let scenes1 :=
    if (t_prev s =? 0) && (tv =? 1) && negb (iv =? 0)
    then scenes s ++ [(start1, iv)]
    else scenes s in
  {| t := tv; t_prev := tv; start := start1; i := Some iv; scenes := scenes1 |}.

(** [t, t_prev, start = -1, 0, 0] and [scenes = []] *)
Definition entry : locals :=
  {| t := -1; t_prev := 0; start := 0; i := None; scenes := [] |}.

(** [if t == 0: scenes.append([start, i])] *)
Definition after_loop (s : locals) : exn + list (Z * Z) :=
  if t s =? 0 then
    match i s with
    | Some iv => inr (scenes s ++ [(start s, iv)])
    | None => inl NameError
    end
  else inr (scenes s).

(** The result is the list of rows of the returned [int32] array; the
    indices of a sequence that fits in memory are all below [2^31]. *)
Definition predictions_to_scenes (predictions : list Q) (threshold : Q)
  : exn + list (Z * Z) :=
  let predictions := binarize threshold predictions in
  match after_loop (fold_left body (enumerate predictions) entry) with
  | inl e => inl e
  | inr sc =>
      if (length sc =? 0)%nat
      then inr [(0, Z.of_nat (length predictions) - 1)]
      else inr sc
  end.

(** *** Reading the result *)

(** Frame [j] lies in one of the closed intervals. *)
Definition covered (j : Z) (ivs : list (Z * Z)) : Prop :=
  exists a b, In (a, b) ivs /\ a <= j <= b.

(** The intervals are non-empty, lie in [lo..hi], and each starts after the
    previous one has ended. *)
Fixpoint ordered (lo hi : Z) (ivs : list (Z * Z)) : Prop :=
  match ivs with
  | [] => True
  | (a, b) :: r => lo <= a /\ a <= b /\ b <= hi /\ ordered (b + 1) hi r
  end.

(** The indices of an interval and of a list of intervals, in order. *)
Definition interval_indices (iv : Z * Z) : list Z :=
  let '(a, b) := iv in map (fun d => a + Z.of_nat d) (seq 0 (Z.to_nat (b - a + 1))).

Definition concatenated (ivs : list (Z * Z)) : list Z :=
  flat_map interval_indices ivs.

(** [0..N-1] *)
Definition all_indices (N : nat) : list Z := map Z.of_nat (seq 0 N).

(** What the partition property asks of the result on [N] frames. *)
Definition partitions (N : nat) (ivs : list (Z * Z)) : Prop :=
  concatenated ivs = all_indices N.

Definition bits (l : list Z) : Prop := Forall (fun b => b = 0 \/ b = 1) l.

(** The scenes appended from position [k] on, the final append included,
    when the previous value is [tp] and the open scene starts at [st]. *)
Fixpoint run (k tp st : Z) (l : list Z) : list (Z * Z) :=
  match l with
  | [] => if tp =? 0 then [(st, k - 1)] else []
  | x :: r =>
      let st1 := if (tp =? 1) && (x =? 0) then k else st in
      (if (tp =? 0) && (x =? 1) && negb (k =? 0) then [(st1, k)] else [])
        ++ run (k + 1) x st1 r
  end.

End Scenes.

(** ** Arrays, messages and the Kafka producer *)

(** [l[a:b]] for [0 <= a <= b]; like the Python slice, it is cut short
    where [l] ends. *)
Definition slice {A : Type} (a b : nat) (l : list A) : list A :=
  firstn (b - a) (skipn a l).

(** [np.where(mask)[0]]: the positions that hold [True], ascending. *)
Fixpoint where_from (k : nat) (mask : list bool) : list nat :=
  match mask with
  | [] => []
  | b :: r => (if b then [k] else []) ++ where_from (S k) r
  end.

Definition np_where (mask : list bool) : list nat := where_from 0 mask.

(** The dictionary built by [emit_topic], before [json.dumps]; the values
    are kept as numbers rather than as their decimal strings. *)
Record dictionary : Set := mkDictionary {
  video : string;
  start : Z;
  end_ : Z;
  score : Q;
  index : Z
}.

(** The module-level [producer]: [produce] queues a message, [flush]
    delivers what is queued. *)
Record SerializingProducer : Set := mkProducer {
  delivered : list dictionary;
  queue : list dictionary
}.

Definition produce (p : SerializingProducer) (value : dictionary) :=
  {| delivered := delivered p; queue := queue p ++ [value] |}.

Definition flush (p : SerializingProducer) :=
  {| delivered := delivered p ++ queue p; queue := [] |}.

(** Every message handed to the producer so far, in order. *)
Definition produced (p : SerializingProducer) : list dictionary :=
  delivered p ++ queue p.

Definition producer_at_import : SerializingProducer :=
  {| delivered := []; queue := [] |}.

(** *** Reading a run of messages *)

(** The messages of one video follow each other: each starts where the
    cursor [p] stands and carries the counter [n]; the next one starts one
    frame after its end, with the next counter. *)
Fixpoint chained (p n : Z) (evs : list dictionary) : Prop :=
  match evs with
  | [] => True
  | e :: r => start e = p /\ index e = n /\ chained (end_ e + 1) (n + 1) r
  end.

(** Where the cursor stands after the messages [evs]. *)
Fixpoint cursor_after (p : Z) (evs : list dictionary) : Z :=
  match evs with
  | [] => p
  | e :: r => cursor_after (end_ e + 1) r
  end.

(** The messages of one call of [find_frames_crossing_threshold]: one per
    position of [indices]. *)
Fixpoint events_for (path : string) (p n gap : Z) (predictions : list Q)
  (indices : list nat) : list dictionary :=
  match indices with
  | [] => []
  | i :: r =>
      {| video := path; start := p; end_ := gap + Z.of_nat i;
         score := nth i predictions 0%Q; index := n |}
      :: events_for path (gap + Z.of_nat i + 1) (n + 1) gap predictions r
  end.

(** The tail padding as the padding-correctness property words it. *)
Definition tail_padding_as_stated (N : nat) : nat :=
  if (N mod 50 =? 0)%nat then (25 + 50)%nat else (25 + (50 - N mod 50))%nat.

(** The final-event guarantee as worded: among [evs], a message that ends
    at frame [N] with score 1. *)
Definition final_event_at (N : nat) (evs : list dictionary) : Prop :=
  exists e, In e evs /\ end_ e = Z.of_nat N /\ score e = 1%Q.

(** The number of strides that [N] frames take, [ceil(N / 50)]. *)
Definition strides (N : nat) : nat := ((N + 49) / 50)%nat.

Fixpoint list_eqb (l1 l2 : list nat) : bool :=
  match l1, l2 with
  | [], [] => true
  | x :: r1, y :: r2 => (x =? y)%nat && list_eqb r1 r2
  | _, _ => false
  end.

Section Controller.

(** The content of one decoded frame. *)
Variable frame : Type.

(** An array of frames: its shape is [length items :: item_shape]. *)
Record ndarray : Type := mkArray {
  items : list frame;
  item_shape : list nat
}.

Definition shape (a : ndarray) : list nat :=
  length (items a) :: item_shape a.

(** [a[np.newaxis]]: a batch of one. *)
Definition batch_shape (a : ndarray) : list nat := 1%nat :: shape a.

(** The saved model followed by the two sigmoids: for a batch of one
    window, the single-frame and the many-hot score of each frame (the
    rows of two tensors of shape [1, L, 1]). *)
Definition saved_model : Type := list frame -> list Q * list Q.

(** The attributes of a [TransNetV2] object. *)
Record TransNetV2 : Type := mkTransNetV2 {
  prev_scene : Z;
  video_path : string;
  max_frame : Z;
  scene_number : Z;
  _input_size : list nat;
  _model : saved_model
}.

(** [TransNetV2(model_dir)], with the weights already loaded: the class
    attributes and what [__init__] sets. *)
Definition TransNetV2_init (model : saved_model) : TransNetV2 :=
  {| prev_scene := 0; video_path := ""%string; max_frame := 0;
     scene_number := 1; _input_size := [27; 48; 3]%nat; _model := model |}.

(** What a method can read and write: its object and the producer. *)
Record world : Type := mkWorld {
  self : TransNetV2;
  producer : SerializingProducer
}.

(** A method body: it returns or raises, and leaves a world behind. *)
Definition M (A : Type) : Type := world -> (exn + A) * world.

Definition ret {A : Type} (a : A) : M A := fun w => (inr a, w).

Definition raise {A : Type} (e : exn) : M A := fun w => (inl e, w).

Definition bind {A B : Type} (m : M A) (f : A -> M B) : M B :=
  fun w =>
    match m w with
    | (inl e, w1) => (inl e, w1)
    | (inr a, w1) => f a w1
    end.

Notation "x <- m ;; k" := (bind m (fun x => k))
  (at level 61, m at next level, right associativity).
Notation "m ;;; k" := (bind m (fun _ => k))
  (at level 61, right associativity).

Definition lift {A : Type} (r : exn + A) : M A :=
  match r with
  | inl e => raise e
  | inr a => ret a
  end.

Definition assert_ (b : bool) : M unit :=
  if b then ret tt else raise AssertionError.

Definition get_self : M TransNetV2 := fun w => (inr (self w), w).

Definition set_self (s : TransNetV2) : M unit :=
  fun w => (inr tt, {| self := s; producer := producer w |}).

Definition set_prev_scene (v : Z) : M unit :=
  s <- get_self ;;
  set_self {| prev_scene := v; video_path := video_path s;
              max_frame := max_frame s; scene_number := scene_number s;
              _input_size := _input_size s; _model := _model s |}.

Definition set_video_path (v : string) : M unit :=
  s <- get_self ;;
  set_self {| prev_scene := prev_scene s; video_path := v;
              max_frame := max_frame s; scene_number := scene_number s;
              _input_size := _input_size s; _model := _model s |}.

Definition set_max_frame (v : Z) : M unit :=
  s <- get_self ;;
  set_self {| prev_scene := prev_scene s; video_path := video_path s;
              max_frame := v; scene_number := scene_number s;
              _input_size := _input_size s; _model := _model s |}.

Definition set_scene_number (v : Z) : M unit :=
  s <- get_self ;;
  set_self {| prev_scene := prev_scene s; video_path := video_path s;
              max_frame := max_frame s; scene_number := v;
              _input_size := _input_size s; _model := _model s |}.

Definition producer_produce (value : dictionary) : M unit :=
  fun w => (inr tt, {| self := self w; producer := produce (producer w) value |}).

Definition producer_flush : M unit :=
  fun w => (inr tt, {| self := self w; producer := flush (producer w) |}).

(** [for x in l: body(x)] *)
Fixpoint for_ {A : Type} (l : list A) (body : A -> M unit) : M unit :=
  match l with
  | [] => ret tt
  | x :: r => body x ;;; for_ r body
  end.

(** A [for] loop that carries a local variable. *)
Fixpoint for_acc {A B : Type} (l : list A) (acc : B) (body : B -> A -> M B)
  : M B :=
  match l with
  | [] => ret acc
  | x :: r => acc1 <- body acc x ;; for_acc r acc1 body
  end.

(** ** The streaming emitter *)

Definition emit_topic (cur_frame : Z) (score : Q) : M unit :=
  s <- get_self ;;
  let dictionary :=
    {| video := video_path s; start := prev_scene s; end_ := cur_frame;
       score := score; index := scene_number s |} in
  set_scene_number (scene_number s + 1) ;;;
  set_prev_scene (cur_frame + 1) ;;;
  producer_produce dictionary.

Definition find_frames_crossing_threshold (gap : Z) (predictions : list Q)
  : M unit :=
  let indices := np_where (map (fun p => gt p thresh) predictions) in
  (if (0 <? length indices)%nat
   then for_ indices (fun i =>
          emit_topic (gap + Z.of_nat i) (nth i predictions 0%Q))
   else ret tt) ;;;
  producer_flush.

(** ** The scoring adapter *)

Definition predict_raw (frames : ndarray) : M (list Q * list Q) :=
  s <- get_self ;;
  assert_ ((length (batch_shape frames) =? 5)%nat
           && list_eqb (skipn 2 (batch_shape frames)) (_input_size s)) ;;;
  ret (_model s (items frames)).

(** ** The window generator *)

(** [25 + 50 - (len(frames) % 50 if len(frames) % 50 != 0 else 50)] *)
Definition no_padded_frames_end (len_frames : nat) : nat :=
  (25 + 50 - (if negb (len_frames mod 50 =? 0) then len_frames mod 50 else 50))%nat.

Definition no_padded_frames_start : nat := 25.

(** [np.concatenate([start_frame] * 25 + [frames] + [end_frame] * n, 0)];
    [frames[0]] raises on an empty array. *)
Definition padded_inputs (frames : list frame) : exn + list frame :=
  match frames with
  | [] => inl IndexError
  | first :: _ =>
      let start_frame := first in
      let end_frame := last frames first in
      inr (repeat start_frame no_padded_frames_start
           ++ frames
           ++ repeat end_frame (no_padded_frames_end (length frames)))
  end.

(** [while ptr + 100 <= len(padded_inputs)]: the windows yielded from
    [ptr] on. *)
Equations? yield_windows (padded : list frame) (ptr : nat) : list (list frame)
  by wf (length padded - ptr)%nat lt :=
  yield_windows padded ptr with le_dec (ptr + 100) (length padded) := {
    | left _ => slice ptr (ptr + 100) padded :: yield_windows padded (ptr + 50)
    | right _ => [] }.
Proof. lia. Qed.

(** The generator is drained by the one [for] loop that consumes it, and
    reads nothing that the loop writes: its windows are given as a list. *)
Definition input_iterator (frames : ndarray) : exn + list ndarray :=
  match padded_inputs (items frames) with
  | inl e => inl e
  | inr padded =>
      inr (map (fun out => {| items := out; item_shape := item_shape frames |})
               (yield_windows padded 0))
  end.

(** ** The controller loop and the stitcher *)

(** [x.numpy()[0, 25:75, 0]] *)
Definition core (x : list Q) : list Q := slice 25 75 x.

(** The body of [for inp in input_iterator()]; [predictions] is the list
    that the loop appends to. *)
Definition window_step (predictions : list (list Q * list Q)) (inp : ndarray)
  : M (list (list Q * list Q)) :=
  r <- predict_raw inp ;;
  let '(single_frame_pred, all_frames_pred) := r in
  find_frames_crossing_threshold
    (Z.of_nat (length predictions) * 50) (core single_frame_pred) ;;;
  ret (predictions ++ [(core single_frame_pred, core all_frames_pred)]).

Definition predict_frames (frames : ndarray) : M (list Q * list Q) :=
  s <- get_self ;;
  assert_ ((length (shape frames) =? 4)%nat
           && list_eqb (skipn 1 (shape frames)) (_input_size s)) ;;;
  set_max_frame (Z.of_nat (length (items frames))) ;;;
  windows <- lift (input_iterator frames) ;;
  predictions <- for_acc windows [] window_step ;;
  s <- get_self ;;
  emit_topic (max_frame s + 1) 1%Q ;;;
  (if (length predictions =? 0)%nat then raise ValueError else ret tt) ;;;
  let single_frame_pred := concat (map fst predictions) in
  let all_frames_pred := concat (map snd predictions) in
  ret (firstn (length (items frames)) single_frame_pred,
       firstn (length (items frames)) all_frames_pred).

(** The frames that [ffmpeg] extracts from a file. *)
Variable ffmpeg_run : string -> exn + list frame.

Definition predict_video (video_fn : string)
  : M (ndarray * list Q * list Q) :=
  set_video_path video_fn ;;;
  video_stream <- lift (ffmpeg_run video_fn) ;;
  let video := {| items := video_stream; item_shape := [27; 48; 3]%nat |} in
  r <- predict_frames video ;;
  ret (video, fst r, snd r).

(** The loop of [main]: one controller for all the files; per file, the
    rows of [.predictions.txt] and of [.scenes.txt]. *)
Fixpoint main_loop (files : list string)
  : M (list (list (Q * Q) * list (Z * Z))) :=
  match files with
  | [] => ret []
  | file :: rest =>
      r <- predict_video file ;;
      let '(_, single_frame_predictions, all_frame_predictions) := r in
      let predictions := combine single_frame_predictions all_frame_predictions in
      scenes <- lift (Scenes.predictions_to_scenes single_frame_predictions thresh) ;;
      out <- main_loop rest ;;
      ret ((predictions, scenes) :: out)
  end.

(** *** Reading the controller *)

(** The assertion of [predict_frames] holds for [frames]. *)
Definition input_shape_ok (s : TransNetV2) (frames : ndarray) : Prop :=
  length (shape frames) = 4%nat /\ skipn 1 (shape frames) = _input_size s.

(** The contract of the scoring function: one score of each kind per frame
    of a full window. *)
Definition model_contract (model : saved_model) : Prop :=
  forall window, length window = 100%nat ->
    length (fst (model window)) = 100%nat
    /\ length (snd (model window)) = 100%nat.

(** What the stitcher keeps of one window. *)
Definition core_pair (model : saved_model) (inp : ndarray)
  : list Q * list Q :=
  (core (fst (model (items inp))), core (snd (model (items inp)))).

(** No score that the emitter sees is above the threshold. *)
Definition all_below (model : saved_model) (windows : list ndarray) : Prop :=
  Forall (fun inp =>
    Forall (fun q => gt q thresh = false) (core (fst (model (items inp)))))
    windows.

(** The shape that [predict_raw] asserts of a window. *)
Definition window_shape_ok (s : TransNetV2) (inp : ndarray) : Prop :=
  length (batch_shape inp) = 5%nat /\ skipn 2 (batch_shape inp) = _input_size s.

(** What a piece of the controller does to the world when it emits the
    messages [evs] and touches nothing but the cursor and the counter. *)
Record emits (w w' : world) (evs : list dictionary) : Prop := mkEmits {
  em_produced : produced (producer w') = produced (producer w) ++ evs;
  em_chained : chained (prev_scene (self w)) (scene_number (self w)) evs;
  em_cursor : prev_scene (self w') = cursor_after (prev_scene (self w)) evs;
  em_counter :
    scene_number (self w') = scene_number (self w) + Z.of_nat (length evs);
  em_video : Forall (fun e => video e = video_path (self w)) evs;
  em_path : video_path (self w') = video_path (self w);
  em_max : max_frame (self w') = max_frame (self w);
  em_size : _input_size (self w') = _input_size (self w);
  em_model : _model (self w') = _model (self w)
}.

(** The world in which the loop of [predict_frames] starts. *)
Definition at_loop_entry (frames : ndarray) (w : world)
  : world :=
  snd (set_max_frame (Z.of_nat (length (items frames))) w).

(** One run of [predict_frames] on well-shaped, non-empty [frames], in
    full: the windows, the loop, the final message and the result. *)
Record frames_run (frames : ndarray) (w w_loop w' : world)
  (windows : list (ndarray)) (evs : list dictionary) (fin : dictionary)
  : Prop := mkFramesRun {
  fr_windows : input_iterator frames = inr windows;
  fr_count : length windows = strides (length (items frames));
  fr_full : Forall (fun inp => length (items inp) = 100%nat) windows;
  fr_loop :
    for_acc windows [] window_step (at_loop_entry frames w)
    = (inr (map (core_pair (_model (self w))) windows), w_loop);
  fr_emits : emits (at_loop_entry frames w) w_loop evs;
  fr_ends :
    Forall (fun e =>
      0 <= end_ e < 50 * Z.of_nat (strides (length (items frames)))
      /\ gt (score e) thresh = true) evs;
  fr_none : all_below (_model (self w)) windows -> evs = [];
  fr_result :
    predict_frames frames w
    = (inr (firstn (length (items frames))
              (concat (map fst (map (core_pair (_model (self w))) windows))),
            firstn (length (items frames))
              (concat (map snd (map (core_pair (_model (self w))) windows)))),
       w');
  fr_final : emits w_loop w' [fin];
  fr_end : end_ fin = Z.of_nat (length (items frames)) + 1;
  fr_score : score fin = 1%Q;
  fr_max : max_frame (self w') = Z.of_nat (length (items frames));
  fr_queue : queue (producer w') = [fin]
}.

End Controller.

Arguments items {frame} _.
Arguments item_shape {frame} _.
Arguments mkArray {frame} _ _.
Arguments prev_scene {frame} _.
Arguments video_path {frame} _.
Arguments max_frame {frame} _.
Arguments scene_number {frame} _.
Arguments _input_size {frame} _.
Arguments _model {frame} _.
Arguments TransNetV2_init {frame} _.
Arguments self {frame} _.
Arguments producer {frame} _.
Arguments mkWorld {frame} _ _.
Arguments emit_topic {frame} _ _ _.
Arguments find_frames_crossing_threshold {frame} _ _ _.
Arguments predict_raw {frame} _ _.
Arguments window_step {frame} _ _ _.
Arguments input_shape_ok {frame} _ _.
Arguments model_contract {frame} _.
Arguments core_pair {frame} _ _.
Arguments all_below {frame} _ _.
Arguments window_shape_ok {frame} _ _.
Arguments emits {frame} _ _ _.
Arguments at_loop_entry {frame} _ _.
Arguments frames_run {frame} _ _ _ _ _ _ _.
Arguments fr_windows {frame frames w w_loop w' windows evs fin} _.
Arguments fr_count {frame frames w w_loop w' windows evs fin} _.
Arguments fr_full {frame frames w w_loop w' windows evs fin} _.
Arguments fr_loop {frame frames w w_loop w' windows evs fin} _.
Arguments fr_emits {frame frames w w_loop w' windows evs fin} _.
Arguments fr_ends {frame frames w w_loop w' windows evs fin} _.
Arguments fr_none {frame frames w w_loop w' windows evs fin} _.
Arguments fr_result {frame frames w w_loop w' windows evs fin} _.
Arguments fr_final {frame frames w w_loop w' windows evs fin} _.
Arguments fr_end {frame frames w w_loop w' windows evs fin} _.
Arguments fr_score {frame frames w w_loop w' windows evs fin} _.
Arguments fr_max {frame frames w w_loop w' windows evs fin} _.
Arguments fr_queue {frame frames w w_loop w' windows evs fin} _.
Arguments em_produced {frame} _ _ _ _.
Arguments em_chained {frame} _ _ _ _.
Arguments em_cursor {frame} _ _ _ _.
Arguments em_counter {frame} _ _ _ _.
Arguments em_video {frame} _ _ _ _.
Arguments em_path {frame} _ _ _ _.
Arguments em_max {frame} _ _ _ _.
Arguments em_size {frame} _ _ _ _.
Arguments em_model {frame} _ _ _ _.

(** ** Concrete inputs *)

(** A clip of [N] frames of the expected shape; a frame is its number. *)
Definition clip (N : nat) : ndarray nat :=
  mkArray (seq 0 N) [27; 48; 3]%nat.

(** A model that scores every frame 0. *)
Definition silent_model : saved_model nat :=
  fun window => (map (fun _ => 0%Q) window, map (fun _ => 0%Q) window).

(** A model that scores frame 60 with 0.9 and every other frame 0. *)
Definition cut_at_60 : saved_model nat :=
  fun window =>
    (map (fun f => if (f =? 60)%nat then 9 # 10 else 0%Q) window,
     map (fun _ => 0%Q) window).

(** A model that returns no score at all. *)
Definition mute_model : saved_model nat := fun _ => ([], []).

(** A newly built controller and the producer as it is at import. *)
Definition fresh (model : saved_model nat) : world nat :=
  mkWorld (TransNetV2_init model) producer_at_import.

(** A decoder that finds one frame in every file. *)
Definition one_frame_decoder (video_fn : string) : exn + list nat :=
  inr [0%nat].

Arguments shape {frame} _.
Arguments batch_shape {frame} _.
Arguments padded_inputs {frame} _.
Arguments yield_windows {frame} _ _.
Arguments input_iterator {frame} _.
Arguments predict_frames {frame} _ _.
Arguments predict_video {frame} _ _ _.
Arguments main_loop {frame} _ _ _.

(** The world a controller is in after a first video of 120 frames. *)
Definition after_first_video : world nat :=
  snd (predict_frames (clip 120) (fresh cut_at_60)).

(** ** Further readings of the results *)

(** The [n] indices from [a] on. *)
Definition zrange (a : Z) (n : nat) : list Z :=
  map (fun d => a + Z.of_nat d) (seq 0 n).

(** No two boundary frames follow each other. *)
Fixpoint no_adjacent_boundaries (bs : list Z) : Prop :=
  match bs with
  | a :: (b :: _) as r => ~ (a = 1 /\ b = 1) /\ no_adjacent_boundaries r
  | _ => True
  end.

(** The positions, counted from [g], and the scores of the entries of
    [scores] that are above the threshold, in order. *)
Fixpoint crossings_from (g : Z) (scores : list Q) : list (Z * Q) :=
  match scores with
  | [] => []
  | q :: r =>
      (if gt q thresh then [(g, q)] else []) ++ crossings_from (g + 1) r
  end.

(** The messages end at increasing frames, none before [lo]. *)
Fixpoint increasing_from (lo : Z) (evs : list dictionary) : Prop :=
  match evs with
  | [] => True
  | e :: r => lo <= end_ e /\ increasing_from (end_ e + 1) r
  end.

(** Where a message ends and the score it carries. *)
Definition end_and_score (e : dictionary) : Z * Q := (end_ e, score e).

(** * Properties *)

(** ** The scene extractor *)

Module ScenesFacts.
Import Scenes.

Example scenes_all_ones :
  predictions_to_scenes [1; 1; 1; 1]%Q thresh = inr [(0, 3)].
Proof. reflexivity. Qed.

Example scenes_one_cut :
  predictions_to_scenes [0; 0; 1; 0; 0]%Q thresh = inr [(0, 2); (3, 4)].
Proof. reflexivity. Qed.

Lemma binarize_bits threshold predictions :
  bits (binarize threshold predictions).
Proof.
  unfold bits, binarize. apply Forall_forall. intros b Hb.
  apply in_map_iff in Hb. destruct Hb as [p [<- _]].
  unfold astype_uint8. destruct (gt p threshold); auto.
Qed.

Lemma binarize_length threshold predictions :
  length (binarize threshold predictions) = length predictions.
Proof. unfold binarize. apply length_map. Qed.

(** The loop, followed by the final append, adds exactly [run] to the
    scenes collected so far. *)
Lemma loop_run l : forall s k,
  t s = t_prev s -> i s = Some (k - 1) ->
  after_loop (fold_left body (enumerate_from k l) s)
  = inr (scenes s ++ run k (t_prev s) (start s) l).
Proof.
  induction l as [|x r IH]; intros s k Ht Hi; simpl.
  - unfold after_loop. rewrite Ht, Hi.
    destruct (t_prev s =? 0); [reflexivity | now rewrite app_nil_r].
  - rewrite IH.
    + simpl. f_equal.
      destruct ((t_prev s =? 0) && (x =? 1) && negb (k =? 0));
        simpl; [rewrite <- app_assoc | ]; reflexivity.
    + reflexivity.
    + simpl. f_equal. lia.
Qed.

(** From the entry state: the first element never closes a scene. *)
Lemma loop_entry x r :
  after_loop (fold_left body (enumerate (x :: r)) entry) = inr (run 1 x 0 r).
Proof.
  unfold enumerate. simpl fold_left.
  rewrite loop_run by reflexivity.
  simpl. now rewrite andb_false_r.
Qed.

Lemma ordered_weaken hi ivs : forall lo lo',
  lo <= lo' -> ordered lo' hi ivs -> ordered lo hi ivs.
Proof.
  destruct ivs as [|[a b] r]; simpl; intros lo lo' Hle H; [exact I|].
  intuition lia.
Qed.

Lemma ordered_widen ivs : forall lo hi hi',
  hi <= hi' -> ordered lo hi ivs -> ordered lo hi' ivs.
Proof.
  induction ivs as [|[a b] r IH]; simpl; intros lo hi hi' Hle H; [exact I|].
  destruct H as (H1 & H2 & H3 & H4).
  repeat split; try lia. eapply IH; eauto.
Qed.

Lemma ordered_In ivs : forall lo hi a b,
  ordered lo hi ivs -> In (a, b) ivs -> lo <= a /\ a <= b /\ b <= hi.
Proof.
  induction ivs as [|[a' b'] r IH]; simpl; intros lo hi a b H Hin; [tauto|].
  destruct H as (H1 & H2 & H3 & H4).
  destruct Hin as [E | Hin].
  - inversion E; subst. lia.
  - specialize (IH _ _ _ _ H4 Hin). lia.
Qed.

Lemma ordered_not_covered lo hi ivs j :
  ordered lo hi ivs -> j < lo -> ~ covered j ivs.
Proof.
  intros H Hj (a & b & Hin & Hab).
  pose proof (ordered_In _ _ _ _ _ H Hin). lia.
Qed.

Lemma covered_cons j a b r :
  covered j ((a, b) :: r) <-> a <= j <= b \/ covered j r.
Proof.
  unfold covered; split.
  - intros (a' & b' & [E | Hin] & H).
    + inversion E; subst. now left.
    + right. eauto.
  - intros [H | (a' & b' & Hin & H)].
    + exists a, b. split; [now left | exact H].
    + exists a', b'. split; [now right | exact H].
Qed.

Lemma covered_nil j : ~ covered j [].
Proof. intros (a & b & [] & _). Qed.

Ltac bit_cases H :=
  let E := fresh "E" in destruct H as [E | E]; subst; simpl.

(** The intervals of [run] are ordered and start no earlier than the open
    scene (previous value 0) or the current position (previous value 1). *)
Lemma run_ordered l : forall k tp st,
  bits (tp :: l) -> 1 <= k -> 0 <= st -> (tp = 0 -> st < k) ->
  ordered (if tp =? 0 then st else k) (k + Z.of_nat (length l) - 1)
          (run k tp st l).
Proof.
  induction l as [|x r IH]; intros k tp st Hb Hk Hst Hopen.
  - inversion Hb as [|? ? Htp _]; subst. bit_cases Htp; [|exact I].
    specialize (Hopen eq_refl). lia.
  - inversion Hb as [|? ? Htp Hb']; subst.
    inversion Hb' as [|? ? Hx Hr]; subst.
    assert (Hlen : k + Z.of_nat (length (x :: r)) - 1
                   = (k + 1) + Z.of_nat (length r) - 1)
      by (simpl length; lia).
    rewrite Hlen.
    assert (Hbx : bits (x :: r)) by (constructor; assumption).
    bit_cases Htp; bit_cases Hx.
    + apply (IH (k + 1) 0 st); auto; lia.
    + replace (k =? 0) with false by (symmetry; apply Z.eqb_neq; lia).
      simpl. specialize (Hopen eq_refl).
      repeat split; try lia.
      apply (IH (k + 1) 1 st); auto; try lia; try (intros; discriminate).
    + apply (ordered_weaken _ _ k k); [lia|].
      apply (IH (k + 1) 0 k); auto; lia.
    + apply (ordered_weaken _ _ k (k + 1)); [lia|].
      apply (IH (k + 1) 1 st); auto; try lia; try (intros; discriminate).
Qed.

(** The open scene is always closed by what follows. *)
Lemma run_covers_open l : forall k st j,
  bits l -> 1 <= k -> st <= j < k -> covered j (run k 0 st l).
Proof.
  induction l as [|x r IH]; intros k st j Hb Hk Hj.
  - simpl. apply covered_cons. left. lia.
  - inversion Hb as [|? ? Hx Hr]; subst. bit_cases Hx.
    + apply IH; auto; lia.
    + replace (k =? 0) with false by (symmetry; apply Z.eqb_neq; lia).
      simpl. apply covered_cons. left. lia.
Qed.

(** Position [k + n] is kept exactly when its value, or the value before
    it, is 0. *)
Lemma run_covered l : forall k tp st n,
  bits (tp :: l) -> 1 <= k -> 0 <= st -> (tp = 0 -> st < k) ->
  (n < length l)%nat ->
  covered (k + Z.of_nat n) (run k tp st l)
  <-> nth n (tp :: l) 1 = 0 \/ nth n l 1 = 0.
Proof.
  induction l as [|x r IH]; intros k tp st n Hb Hk Hst Hopen Hn;
    [simpl in Hn; lia|].
  inversion Hb as [|? ? Htp Hb']; subst.
  inversion Hb' as [|? ? Hx Hr]; subst.
  assert (Hbx : bits (x :: r)) by (constructor; assumption).
  destruct n as [|m].
  - rewrite Z.add_0_r. simpl nth.
    bit_cases Htp; bit_cases Hx.
    + split; [auto|intros _]. apply run_covers_open; auto; lia.
    + replace (k =? 0) with false by (symmetry; apply Z.eqb_neq; lia).
      simpl. rewrite covered_cons. specialize (Hopen eq_refl).
      split; [auto|intros _]. left; lia.
    + split; [auto|intros _]. apply run_covers_open; auto; lia.
    + split; [|intros [?|?]; discriminate].
      intros Hc. exfalso. revert Hc.
      apply (ordered_not_covered (k + 1) (k + 1 + Z.of_nat (length r) - 1)); [|lia].
      apply (run_ordered r (k + 1) 1 st); auto; try lia; try (intros; discriminate).
  - simpl in Hn.
    replace (k + Z.of_nat (S m)) with ((k + 1) + Z.of_nat m) by lia.
    change (nth (S m) (tp :: x :: r) 1) with (nth m (x :: r) 1).
    change (nth (S m) (x :: r) 1) with (nth m r 1).
    assert (Hm : (m < length r)%nat) by lia.
    bit_cases Htp; bit_cases Hx.
    + apply (IH (k + 1) 0 st m); auto; lia.
    + replace (k =? 0) with false by (symmetry; apply Z.eqb_neq; lia).
      simpl. rewrite covered_cons.
      rewrite <- (IH (k + 1) 1 st m); auto; try lia; try (intros; discriminate).
      split; [intros [?|?]; [lia|assumption] | auto].
    + apply (IH (k + 1) 0 k m); auto; lia.
    + apply (IH (k + 1) 1 st m); auto; try lia; try (intros; discriminate).
Qed.

(** Coverage of the intervals collected on a non-empty sequence, before the
    all-boundary fallback. *)
Lemma run_entry_covered b bs n :
  bits (b :: bs) -> (n < length (b :: bs))%nat ->
  covered (Z.of_nat n) (run 1 b 0 bs)
  <-> nth n (b :: bs) 1 = 0 \/ (1 <= n)%nat /\ nth (n - 1) (b :: bs) 1 = 0.
Proof.
  intros Hb Hn.
  assert (Hopen : b = 0 -> 0 < 1) by lia.
  destruct n as [|m].
  - simpl nth. inversion Hb as [|? ? Hb0 Hbs]; subst.
    destruct Hb0 as [-> | ->].
    + split; [auto|intros _]. apply run_covers_open; auto; lia.
    + split; [|intros [?|[? _]]; [discriminate|lia]].
      intros Hc. exfalso. revert Hc.
      apply (ordered_not_covered 1 (1 + Z.of_nat (length bs) - 1)); [|lia].
      apply (run_ordered bs 1 1 0); auto; lia.
  - simpl in Hn.
    replace (Z.of_nat (S m)) with (1 + Z.of_nat m) by lia.
    rewrite (run_covered bs 1 b 0 m) by (auto; lia).
    replace (S m - 1)%nat with m by lia.
    change (nth (S m) (b :: bs) 1) with (nth m bs 1).
    split; [intros [?|?]; [right; split; [lia|assumption] | now left]
           | intros [?|[_ ?]]; [now right | now left]].
Qed.

Lemma run_entry_ordered b bs :
  bits (b :: bs) ->
  ordered 0 (Z.of_nat (length (b :: bs)) - 1) (run 1 b 0 bs).
Proof.
  intros Hb.
  apply (ordered_weaken _ _ 0 (if b =? 0 then 0 else 1));
    [destruct (b =? 0); lia|].
  replace (Z.of_nat (length (b :: bs)) - 1)
    with (1 + Z.of_nat (length bs) - 1) by (simpl length; lia).
  apply run_ordered; auto; lia.
Qed.

(** On a sequence of ones nothing is collected. *)
Lemma run_entry_all_ones b bs :
  bits (b :: bs) -> Forall (eq 1) (b :: bs) -> run 1 b 0 bs = [].
Proof.
  intros Hb Hall.
  destruct (run 1 b 0 bs) as [|[a e] r] eqn:ER; [reflexivity|exfalso].
  pose proof (run_entry_ordered b bs Hb) as Ho. rewrite ER in Ho.
  destruct Ho as (H0 & Hae & He & _).
  assert (Hn : (Z.to_nat a < length (b :: bs))%nat) by lia.
  pose proof (run_entry_covered b bs (Z.to_nat a) Hb Hn) as Hc.
  rewrite ER, Z2Nat.id in Hc by lia.
  destruct Hc as [Hc _].
  assert (Hall' : forall n, (n < length (b :: bs))%nat -> nth n (b :: bs) 1 = 1).
  { intros n Hlt. symmetry.
    apply (proj1 (Forall_nth (eq 1) (b :: bs)) Hall n 1 Hlt). }
  destruct Hc as [Hc | [Hge Hc]].
  - apply covered_cons. left. lia.
  - rewrite Hall' in Hc by exact Hn. discriminate.
  - rewrite Hall' in Hc by lia. discriminate.
Qed.

(** C3, as stated, fails: on the binary sequence [0,1,1,0] the intervals
    are [[0,1],[3,3]], and frame 2 lies in none of them. *)
Lemma scenes_gap_at_repeated_boundary :
  predictions_to_scenes [0; 1; 1; 0]%Q thresh = inr [(0, 1); (3, 3)]
  /\ ~ partitions 4 [(0, 1); (3, 3)]
  /\ ~ covered 2 [(0, 1); (3, 3)].
Proof.
  split; [reflexivity|]. split.
  - unfold partitions. cbv. discriminate.
  - intros (a & b & Hin & H).
    simpl in Hin. destruct Hin as [E | [E | []]]; inversion E; subst; lia.
Qed.

(** C3, amended: for every prediction sequence of length [N >= 1] the
    returned intervals are non-empty, lie within [0..N-1], come in
    increasing order and never overlap; frame [n] lies in one of them
    exactly when every frame is a boundary (the fallback), or frame [n] is
    not a boundary, or frame [n - 1] is not a boundary. *)
Theorem scenes_ordered_and_kept (predictions : list Q) (threshold : Q) :
  (1 <= length predictions)%nat ->
  let bs := binarize threshold predictions in
  let N := length predictions in
  exists ivs,
    predictions_to_scenes predictions threshold = inr ivs
    /\ ordered 0 (Z.of_nat N - 1) ivs
    /\ forall n, (n < N)%nat ->
         (covered (Z.of_nat n) ivs
          <-> Forall (eq 1) bs
              \/ nth n bs 1 = 0
              \/ (1 <= n)%nat /\ nth (n - 1) bs 1 = 0).
Proof.
  intros HN bs N.
  pose proof (binarize_bits threshold predictions) as Hb.
  pose proof (binarize_length threshold predictions) as Hlen.
  fold bs in Hb, Hlen. unfold predictions_to_scenes. fold bs.
  subst N. rewrite <- Hlen in *.
  destruct bs as [|b r]; [simpl in HN; lia|].
  rewrite loop_entry.
  pose proof (run_entry_ordered b r Hb) as Ho.
  pose proof (fun n => run_entry_covered b r n Hb) as Hc.
  destruct (run 1 b 0 r) as [|iv ivs] eqn:ER.
  - exists [(0, Z.of_nat (length (b :: r)) - 1)]. simpl Nat.eqb. cbv iota.
    split; [reflexivity|]. split; [cbn [ordered]; lia|].
    intros n Hn. split.
    + intros _. left. apply Forall_nth. intros m d Hm.
      specialize (Hc m Hm).
      assert (Hbit : nth m (b :: r) d = 0 \/ nth m (b :: r) d = 1).
      { apply (proj1 (Forall_nth _ (b :: r)) Hb m d Hm). }
      destruct Hbit as [E | E]; [|now rewrite E].
      exfalso. apply (covered_nil (Z.of_nat m)). apply Hc. left.
      rewrite (nth_indep _ 1 d Hm). exact E.
    + intros _. apply covered_cons. left. lia.
  - exists (iv :: ivs). simpl Nat.eqb. cbv iota.
    split; [reflexivity|]. split; [exact Ho|].
    intros n Hn. rewrite (Hc n Hn). split; [tauto|].
    intros [Hall | H]; [|exact H].
    rewrite (run_entry_all_ones b r Hb Hall) in ER. discriminate.
Qed.

(** A binary sequence with a single boundary frame. *)
Lemma scenes_ordered_and_kept_witness :
  (1 <= length [0; 0; 1; 0; 0]%Q)%nat
  /\ exists ivs,
    predictions_to_scenes [0; 0; 1; 0; 0]%Q thresh = inr ivs
    /\ ordered 0 4 ivs
    /\ forall n, (n < 5)%nat ->
         (covered (Z.of_nat n) ivs
          <-> Forall (eq 1) [0; 0; 1; 0; 0]
              \/ nth n [0; 0; 1; 0; 0] 1 = 0
              \/ (1 <= n)%nat /\ nth (n - 1) [0; 0; 1; 0; 0] 1 = 0).
Proof.
  split; [simpl; lia|].
  apply (scenes_ordered_and_kept [0; 0; 1; 0; 0]%Q thresh).
  simpl. lia.
Defined.

(** C10: on the empty sequence the scan collects nothing and raises
    nothing, and the fallback returns the single interval [[0, -1]]. *)
Theorem scenes_of_empty (threshold : Q) :
  after_loop (fold_left body (enumerate (binarize threshold [])) entry) = inr []
  /\ predictions_to_scenes [] threshold = inr [(0, -1)].
Proof. split; reflexivity. Qed.

End ScenesFacts.

(** ** The streaming emitter *)

Section EmitterFacts.

Context {frame : Type}.



(** [emit_topic] queues one message built from the cursor and the counter,
    then moves both. *)
Lemma emit_topic_eq cur_frame sc (w : world frame) :
  emit_topic cur_frame sc w
  = (inr tt,
     mkWorld
       {| prev_scene := cur_frame + 1;
          video_path := video_path (self w);
          max_frame := max_frame (self w);
          scene_number := scene_number (self w) + 1;
          _input_size := _input_size (self w);
          _model := _model (self w) |}
       (produce (producer w)
          {| video := video_path (self w); start := prev_scene (self w);
             end_ := cur_frame; score := sc;
             index := scene_number (self w) |})).
Proof. reflexivity. Qed.

Lemma chained_app evs1 : forall p n evs2,
  chained p n evs1 ->
  chained (cursor_after p evs1) (n + Z.of_nat (length evs1)) evs2 ->
  chained p n (evs1 ++ evs2).
Proof.
  induction evs1 as [|e r IH]; intros p n evs2 H1 H2.
  - simpl in *. now rewrite Z.add_0_r in H2.
  - destruct H1 as (Hs & Hi & Hr). simpl. repeat split; auto.
    apply IH; auto.
    replace (n + 1 + Z.of_nat (length r))
      with (n + Z.of_nat (length (e :: r))) by (simpl length; lia).
    exact H2.
Qed.

Lemma cursor_after_app evs1 : forall p evs2,
  cursor_after p (evs1 ++ evs2) = cursor_after (cursor_after p evs1) evs2.
Proof. induction evs1 as [|e r IH]; intros; simpl; auto. Qed.

Lemma emits_nil (w : world frame) : emits w w [].
Proof.
  constructor; simpl; auto; try lia.
  now rewrite app_nil_r.
Qed.

Lemma emits_app (w1 w2 w3 : world frame) evs1 evs2 :
  emits w1 w2 evs1 -> emits w2 w3 evs2 -> emits w1 w3 (evs1 ++ evs2).
Proof.
  intros [] []. constructor.
  - rewrite app_assoc. congruence.
  - apply chained_app; auto. congruence.
  - rewrite cursor_after_app. congruence.
  - rewrite length_app. lia.
  - apply Forall_app. split; auto.
    eapply Forall_impl; [|eassumption]. simpl. intros; congruence.
  - congruence.
  - congruence.
  - congruence.
  - congruence.
Qed.

Lemma emits_emit_topic cur_frame sc (w : world frame) :
  emits w (snd (emit_topic cur_frame sc w))
    [{| video := video_path (self w); start := prev_scene (self w);
        end_ := cur_frame; score := sc; index := scene_number (self w) |}].
Proof.
  rewrite emit_topic_eq. constructor; simpl; auto; try lia.
  unfold produced. simpl. now rewrite app_assoc.
Qed.

Lemma emits_flush (w : world frame) :
  emits w (snd (producer_flush frame w)) [].
Proof.
  constructor; simpl; auto; lia.
Qed.

(** The loop of [find_frames_crossing_threshold] emits [events_for]. *)
Lemma for_emit_topic gap predictions indices : forall (w : world frame),
  exists w',
    for_ frame indices (fun i =>
      emit_topic (gap + Z.of_nat i) (nth i predictions 0%Q)) w = (inr tt, w')
    /\ emits w w'
         (events_for (video_path (self w)) (prev_scene (self w))
            (scene_number (self w)) gap predictions indices).
Proof.
  induction indices as [|i r IH]; intros w.
  - exists w. split; [reflexivity|apply emits_nil].
  - simpl for_. unfold bind at 1. rewrite emit_topic_eq.
    match goal with |- context [for_ _ r _ ?w1] =>
      destruct (IH w1) as (w' & Hrun & Hem) end.
    exists w'. split; [exact Hrun|].
    simpl events_for.
    match goal with |- emits _ _ (?e :: ?l) => change (e :: l) with ([e] ++ l) end.
    eapply emits_app; [|exact Hem].
    pose proof (emits_emit_topic (gap + Z.of_nat i) (nth i predictions 0%Q) w) as H.
    rewrite emit_topic_eq in H. exact H.
Qed.

Lemma where_from_In mask : forall k i,
  In i (where_from k mask) ->
  (k <= i < k + length mask)%nat /\ nth (i - k) mask false = true.
Proof.
  induction mask as [|b r IH]; intros k i Hin; simpl in Hin; [tauto|].
  apply in_app_or in Hin. destruct Hin as [Hin | Hin].
  - destruct b; simpl in Hin; [|tauto].
    destruct Hin as [<- | []]. rewrite Nat.sub_diag. simpl. split; [lia|auto].
  - destruct (IH _ _ Hin) as [Hr Hn]. simpl length. split; [lia|].
    replace (i - k)%nat with (S (i - S k)) by lia. exact Hn.
Qed.

Lemma where_from_none mask : forall k,
  Forall (fun b => b = false) mask -> where_from k mask = [].
Proof.
  induction mask as [|b r IH]; intros k H; [reflexivity|].
  inversion H; subst. simpl. now apply IH.
Qed.

(** A message of [events_for] ends at one of the indices and carries the
    score found there. *)
Lemma events_for_In gap predictions indices : forall path p n e,
  In e (events_for path p n gap predictions indices) ->
  exists i, In i indices
            /\ end_ e = gap + Z.of_nat i /\ score e = nth i predictions 0%Q.
Proof.
  induction indices as [|i r IH]; intros path p n e Hin; simpl in Hin; [tauto|].
  destruct Hin as [<- | Hin].
  - exists i. simpl. auto.
  - destruct (IH _ _ _ _ Hin) as (j & Hj & H). exists j. simpl. auto.
Qed.

(** The messages of one window end inside the window's core, at frames
    whose score is above the threshold. *)
Lemma window_events_crossing path p n gap predictions e :
  In e (events_for path p n gap predictions
          (np_where (map (fun q => gt q thresh) predictions))) ->
  gap <= end_ e < gap + Z.of_nat (length predictions)
  /\ gt (score e) thresh = true.
Proof.
  intros Hin. apply events_for_In in Hin. destruct Hin as (i & Hi & He & Hs).
  apply where_from_In in Hi. destruct Hi as [Hr Hn].
  rewrite length_map in Hr. rewrite Nat.sub_0_r in Hn.
  split; [lia|]. rewrite Hs.
  rewrite (nth_indep _ false (gt 0%Q thresh)) in Hn by (rewrite length_map; lia).
  now rewrite (map_nth (fun q => gt q thresh)) in Hn.
Qed.

Lemma window_events_none path p n gap predictions :
  Forall (fun q => gt q thresh = false) predictions ->
  events_for path p n gap predictions
    (np_where (map (fun q => gt q thresh) predictions)) = [].
Proof.
  intros H. unfold np_where. rewrite where_from_none; [reflexivity|].
  apply Forall_forall. intros b Hb. apply in_map_iff in Hb.
  destruct Hb as (q & <- & Hq).
  exact (proj1 (Forall_forall _ _) H q Hq).
Qed.

(** One call of [find_frames_crossing_threshold]: it never raises, emits
    the window's messages and leaves the queue flushed. *)
Lemma find_frames_crossing_threshold_emits gap predictions (w : world frame) :
  exists w',
    find_frames_crossing_threshold gap predictions w = (inr tt, w')
    /\ emits w w'
         (events_for (video_path (self w)) (prev_scene (self w))
            (scene_number (self w)) gap predictions
            (np_where (map (fun q => gt q thresh) predictions)))
    /\ queue (producer w') = [].
Proof.
  unfold find_frames_crossing_threshold.
  set (indices := np_where (map (fun q => gt q thresh) predictions)).
  destruct (for_emit_topic gap predictions indices w) as (w1 & Hrun & Hem).
  exists (snd (producer_flush frame w1)).
  assert (Hloop :
    (if (0 <? length indices)%nat
     then for_ frame indices (fun i =>
            emit_topic (gap + Z.of_nat i) (nth i predictions 0%Q))
     else ret frame tt) w = (inr tt, w1)).
  { destruct indices as [|i r]; [|exact Hrun].
    simpl in Hrun. simpl. exact Hrun. }
  unfold bind. rewrite Hloop. split; [reflexivity|]. split; [|reflexivity].
  rewrite <- (app_nil_r (events_for _ _ _ _ _ _)).
  eapply emits_app; [exact Hem|apply emits_flush].
Qed.

End EmitterFacts.

(** ** The window generator *)

Section WindowFacts.

Context {frame : Type}.

Lemma slice_length {A : Type} (a b : nat) (l : list A) :
  (b <= length l)%nat -> length (slice a b l) = (b - a)%nat.
Proof.
  intros H. unfold slice. rewrite length_firstn, length_skipn. lia.
Qed.

Lemma slice_length_le {A : Type} (a b : nat) (l : list A) :
  (length (slice a b l) <= b - a)%nat.
Proof. unfold slice. rewrite length_firstn. lia. Qed.

(** The tail padding, case by case. *)
Lemma no_padded_frames_end_cases (N : nat) :
  no_padded_frames_end N
  = if (N mod 50 =? 0)%nat then 25%nat else (25 + (50 - N mod 50))%nat.
Proof.
  unfold no_padded_frames_end.
  pose proof (Nat.mod_upper_bound N 50).
  destruct (N mod 50 =? 0)%nat; simpl negb; cbv iota; lia.
Qed.

Lemma padded_inputs_cons (first : frame) (rest : list frame) :
  padded_inputs (first :: rest)
  = inr (repeat first 25 ++ (first :: rest)
         ++ repeat (last (first :: rest) first)
              (no_padded_frames_end (length (first :: rest)))).
Proof. reflexivity. Qed.

(** The padded sequence holds one stride more than the frames rounded up
    to whole strides. *)
Lemma padded_length (first : frame) (rest padded : list frame) :
  padded_inputs (first :: rest) = inr padded ->
  length padded = (50 * ((length (first :: rest) + 49) / 50) + 50)%nat.
Proof.
  rewrite padded_inputs_cons. intros H.
  assert (Hp : padded
               = repeat first 25 ++ (first :: rest)
                 ++ repeat (last (first :: rest) first)
                      (no_padded_frames_end (length (first :: rest))))
    by congruence.
  rewrite Hp, !length_app, !repeat_length, no_padded_frames_end_cases.
  set (N := length (first :: rest)).
  pose proof (Nat.div_mod_eq N 50) as HN.
  pose proof (Nat.mod_upper_bound N 50) as Hr.
  pose proof (Nat.div_mod_eq (N + 49) 50) as HN'.
  pose proof (Nat.mod_upper_bound (N + 49) 50) as Hr'.
  destruct (N mod 50 =? 0)%nat eqn:E;
    [apply Nat.eqb_eq in E | apply Nat.eqb_neq in E]; lia.
Qed.

(** The loop yields one window per stride that fits. *)
Lemma yield_windows_length (padded : list frame) (ptr : nat) :
  length (yield_windows padded ptr) = ((length padded - ptr - 50) / 50)%nat.
Proof.
  funelim (yield_windows padded ptr).
  - cbn [length]. rewrite H.
    replace (length padded - ptr - 50)%nat
      with ((length padded - (ptr + 50) - 50) + 1 * 50)%nat by lia.
    rewrite Nat.div_add by lia. lia.
  - cbn [length]. symmetry. apply Nat.div_small. lia.
Qed.

(** Every window is full. *)
Lemma yield_windows_full (padded : list frame) (ptr : nat) :
  Forall (fun out => length out = 100%nat) (yield_windows padded ptr).
Proof.
  funelim (yield_windows padded ptr).
  - constructor; [|assumption].
    rewrite slice_length by lia. lia.
  - constructor.
Qed.

(** On [N >= 1] frames the generator yields [ceil(N / 50)] windows. *)
Lemma input_iterator_windows (frames : ndarray frame) :
  items frames <> [] ->
  exists padded,
    padded_inputs (items frames) = inr padded
    /\ input_iterator frames
       = inr (map (fun out => mkArray out (item_shape frames))
                  (yield_windows padded 0))
    /\ length (yield_windows padded 0) = strides (length (items frames)).
Proof.
  intros Hne. unfold input_iterator.
  destruct (items frames) as [|first rest] eqn:E; [congruence|].
  destruct (padded_inputs (first :: rest)) as [e|padded] eqn:Ep;
    [discriminate|].
  exists padded. split; [reflexivity|]. split; [reflexivity|].
  unfold strides. rewrite yield_windows_length, (padded_length _ _ _ Ep).
  rewrite Nat.sub_0_r.
  replace (50 * ((length (first :: rest) + 49) / 50) + 50 - 50)%nat
    with (((length (first :: rest) + 49) / 50) * 50)%nat by lia.
  apply Nat.div_mul. lia.
Qed.

End WindowFacts.

(** ** The controller loop *)

Section ControllerFacts.

Context {frame : Type}.

Lemma list_eqb_eq l1 : forall l2, list_eqb l1 l2 = true <-> l1 = l2.
Proof.
  induction l1 as [|x r IH]; intros [|y r2]; simpl; split; intros H;
    try reflexivity; try discriminate.
  - apply andb_prop in H. destruct H as [Hx Hr].
    apply Nat.eqb_eq in Hx. apply IH in Hr. congruence.
  - inversion H; subst. rewrite Nat.eqb_refl. simpl. now apply IH.
Qed.

Lemma bind_ok {A B : Type} (m : M frame A) (f : A -> M frame B) w a w1 :
  m w = (inr a, w1) -> bind frame m f w = f a w1.
Proof. intros H. unfold bind. now rewrite H. Qed.

Lemma bind_raise {A B : Type} (m : M frame A) (f : A -> M frame B) w e w1 :
  m w = (inl e, w1) -> bind frame m f w = (inl e, w1).
Proof. intros H. unfold bind. now rewrite H. Qed.

(** [predict_raw] checks its input and hands the model's output on. *)
Lemma predict_raw_eq (inp : ndarray frame) (w : world frame) :
  predict_raw inp w
  = if (length (batch_shape inp) =? 5)%nat
       && list_eqb (skipn 2 (batch_shape inp)) (_input_size (self w))
    then (inr (_model (self w) (items inp)), w)
    else (inl AssertionError, w).
Proof.
  unfold predict_raw, bind, get_self, assert_.
  destruct ((length (batch_shape inp) =? 5)%nat
            && list_eqb (skipn 2 (batch_shape inp)) (_input_size (self w)));
    reflexivity.
Qed.

Lemma predict_raw_ok (inp : ndarray frame) (w : world frame) :
  window_shape_ok (self w) inp ->
  predict_raw inp w = (inr (_model (self w) (items inp)), w).
Proof.
  intros [Hl Hs]. rewrite predict_raw_eq.
  rewrite Hl, (proj2 (list_eqb_eq _ _) Hs). reflexivity.
Qed.

Lemma core_length_le (x : list Q) : (length (core x) <= 50)%nat.
Proof. unfold core. pose proof (slice_length_le 25 75 x). lia. Qed.

Lemma core_length (x : list Q) :
  length x = 100%nat -> length (core x) = 50%nat.
Proof. intros H. unfold core. rewrite slice_length; lia. Qed.

(** One turn of the loop: the window's core is appended, its messages are
    emitted and flushed. *)
Lemma window_step_run predictions (inp : ndarray frame) (w : world frame) :
  window_shape_ok (self w) inp ->
  exists w',
    window_step predictions inp w
    = (inr (predictions ++ [core_pair (_model (self w)) inp]), w')
    /\ emits w w'
         (events_for (video_path (self w)) (prev_scene (self w))
            (scene_number (self w)) (Z.of_nat (length predictions) * 50)
            (core (fst (_model (self w) (items inp))))
            (np_where (map (fun q => gt q thresh)
                           (core (fst (_model (self w) (items inp)))))))
    /\ queue (producer w') = [].
Proof.
  intros Hshape. unfold window_step, bind at 1.
  rewrite (predict_raw_ok _ _ Hshape).
  destruct (_model (self w) (items inp)) as [single all] eqn:Em.
  destruct (find_frames_crossing_threshold_emits
              (Z.of_nat (length predictions) * 50) (core single) w)
    as (w' & Hrun & Hem & Hq).
  exists w'. unfold bind. rewrite Hrun. unfold core_pair. rewrite Em.
  simpl fst. simpl snd. auto.
Qed.

(** The whole loop: the cores of all the windows are collected in order;
    every message ends inside the strides processed and carries a score
    above the threshold. *)
Lemma window_loop_run (windows : list (ndarray frame)) :
  forall predictions (w : world frame),
  Forall (window_shape_ok (self w)) windows ->
  exists w' evs,
    for_acc frame windows predictions window_step w
    = (inr (predictions ++ map (core_pair (_model (self w))) windows), w')
    /\ emits w w' evs
    /\ Forall (fun e =>
         50 * Z.of_nat (length predictions) <= end_ e
           < 50 * Z.of_nat (length predictions + length windows)
         /\ gt (score e) thresh = true) evs
    /\ (all_below (_model (self w)) windows -> evs = [])
    /\ (windows <> [] -> queue (producer w') = []).
Proof.
  induction windows as [|inp r IH]; intros predictions w Hshapes.
  - exists w, []. simpl. rewrite app_nil_r.
    split; [reflexivity|]. split; [apply emits_nil|].
    split; [constructor|]. split; [reflexivity|]. intros H. now elim H.
  - inversion Hshapes as [|? ? Hinp Hr]; subst.
    destruct (window_step_run predictions inp w Hinp)
      as (w1 & Hstep & Hem1 & Hq1).
    assert (Hr1 : Forall (window_shape_ok (self w1)) r).
    { eapply Forall_impl; [|exact Hr]. intros a [Ha1 Ha2].
      split; [exact Ha1|]. rewrite (em_size _ _ _ Hem1). exact Ha2. }
    destruct (IH (predictions ++ [core_pair (_model (self w)) inp]) w1 Hr1)
      as (w' & evs2 & Hloop & Hem2 & Hends & Hnone & Hq2).
    rewrite (em_model _ _ _ Hem1) in Hloop, Hnone.
    eexists w', (_ ++ evs2). split; [|split; [|split; [|split]]].
    + simpl for_acc. unfold bind. rewrite Hstep, Hloop.
      rewrite <- app_assoc. reflexivity.
    + eapply emits_app; eassumption.
    + apply Forall_app. split.
      * apply Forall_forall. intros e He.
        apply window_events_crossing in He. destruct He as [Hrange Hgt].
        pose proof (core_length_le (fst (_model (self w) (items inp)))).
        cbn [length]. split; [lia|exact Hgt].
      * eapply Forall_impl; [|exact Hends]. cbv beta. intros e [Hrange Hgt].
        rewrite length_app in Hrange. cbn [length] in *.
        split; [lia|exact Hgt].
    + intros Hall. inversion Hall as [|? ? Hb Hbr]; subst.
      rewrite window_events_none by exact Hb. simpl. now apply Hnone.
    + intros _. destruct r as [|inp2 r2].
      * simpl in Hloop. unfold ret in Hloop. inversion Hloop; subst. exact Hq1.
      * apply Hq2. discriminate.
Qed.

Lemma strides_pos (N : nat) : (1 <= N)%nat -> (1 <= strides N)%nat.
Proof.
  intros H. unfold strides.
  pose proof (Nat.div_mod_eq (N + 49) 50).
  pose proof (Nat.mod_upper_bound (N + 49) 50). lia.
Qed.

Lemma strides_cover (N : nat) : (N <= 50 * strides N < N + 50)%nat.
Proof.
  unfold strides.
  pose proof (Nat.div_mod_eq (N + 49) 50).
  pose proof (Nat.mod_upper_bound (N + 49) 50). lia.
Qed.

Lemma predict_frames_run (frames : ndarray frame) (w : world frame) :
  input_shape_ok (self w) frames -> items frames <> [] ->
  exists w_loop w' windows evs fin,
    frames_run frames w w_loop w' windows evs fin.
Proof.
  intros [Hlen Hsize] Hne.
  destruct (input_iterator_windows frames Hne)
    as (padded & Hpad & Hiter & Hcount).
  set (windows := map (fun out => mkArray out (item_shape frames))
                      (yield_windows padded 0)) in *.
  set (w1 := at_loop_entry frames w).
  assert (Hshapes : Forall (window_shape_ok (self w1)) windows).
  { apply Forall_forall. intros inp Hin. apply in_map_iff in Hin.
    destruct Hin as (out & <- & _). unfold window_shape_ok, batch_shape, shape.
    unfold shape in Hlen, Hsize. simpl in *. split; [lia|exact Hsize]. }
  destruct (window_loop_run windows [] w1 Hshapes)
    as (w_loop & evs & Hloop & Hem & Hends & Hnone & Hq).
  rewrite app_nil_l in Hloop.
  change (_model (self w1)) with (_model (self w)) in *.
  assert (HN : (1 <= length (items frames))%nat).
  { destruct (items frames); [congruence|simpl; lia]. }
  assert (Hwn : length windows = strides (length (items frames))).
  { unfold windows. rewrite length_map. exact Hcount. }
  pose proof (strides_pos _ HN) as Hpos.
  set (fin := {| video := video_path (self w_loop);
                 start := prev_scene (self w_loop);
                 end_ := max_frame (self w_loop) + 1; score := 1%Q;
                 index := scene_number (self w_loop) |}).
  assert (Hmax : max_frame (self w_loop) = Z.of_nat (length (items frames))).
  { rewrite (em_max _ _ _ Hem). reflexivity. }
  exists w_loop, (snd (emit_topic (max_frame (self w_loop) + 1) 1%Q w_loop)),
    windows, evs, fin.
  constructor.
  - exact Hiter.
  - exact Hwn.
  - unfold windows. rewrite !Forall_map. simpl.
    apply yield_windows_full.
  - exact Hloop.
  - exact Hem.
  - eapply Forall_impl; [|exact Hends]. cbv beta. intros e [Hr Hg].
    cbn [length] in Hr. rewrite Hwn in Hr. split; [lia|exact Hg].
  - exact Hnone.
  - unfold predict_frames.
    rewrite (bind_ok _ _ w (self w) w) by reflexivity.
    rewrite (bind_ok _ _ w tt w)
      by (rewrite Hlen, (proj2 (list_eqb_eq _ _) Hsize); reflexivity).
    rewrite (bind_ok _ _ w tt w1) by reflexivity.
    rewrite (bind_ok _ _ w1 windows w1) by (rewrite Hiter; reflexivity).
    rewrite (bind_ok _ _ _ _ _ Hloop).
    rewrite (bind_ok _ _ w_loop (self w_loop) w_loop) by reflexivity.
    rewrite (bind_ok _ _ _ _ _ (emit_topic_eq _ _ _)).
    rewrite length_map.
    replace (length windows =? 0)%nat with false
      by (symmetry; apply Nat.eqb_neq; lia).
    reflexivity.
  - apply emits_emit_topic.
  - simpl. lia.
  - reflexivity.
  - rewrite emit_topic_eq. simpl. exact Hmax.
  - rewrite emit_topic_eq. simpl. rewrite Hq; [reflexivity|].
    intros E. rewrite E in Hwn. simpl in Hwn. lia.
Qed.

End ControllerFacts.

(** ** Padding *)

Section PaddingClaims.

Context {frame : Type}.

(** C5, amended: for [N >= 1] frames the padded sequence is 25 copies of
    the first frame, the frames, and copies of the last frame: [25 + (50 -
    N mod 50)] of them when [N mod 50 <> 0], and 25 of them when
    [N mod 50 = 0]. *)
Theorem padding_counts (frames : list frame) :
  (1 <= length frames)%nat ->
  exists first,
    hd_error frames = Some first
    /\ padded_inputs frames
       = inr (repeat first 25
              ++ frames
              ++ repeat (last frames first)
                   (if (length frames mod 50 =? 0)%nat
                    then 25%nat
                    else (25 + (50 - length frames mod 50))%nat)).
Proof.
  intros HN. destruct frames as [|first rest]; [simpl in HN; lia|].
  exists first. split; [reflexivity|].
  rewrite padded_inputs_cons, no_padded_frames_end_cases. reflexivity.
Qed.

End PaddingClaims.

(** Three frames: 25 copies of frame 0 before them, 72 of frame 2 after. *)
Lemma padding_counts_witness :
  (1 <= length [0; 1; 2]%nat)%nat
  /\ exists first,
    hd_error [0; 1; 2]%nat = Some first
    /\ padded_inputs [0; 1; 2]%nat
       = inr (repeat first 25
              ++ [0; 1; 2]%nat
              ++ repeat (last [0; 1; 2]%nat first)
                   (if (length [0; 1; 2]%nat mod 50 =? 0)%nat
                    then 25%nat
                    else (25 + (50 - length [0; 1; 2]%nat mod 50))%nat)).
Proof.
  split; [simpl; lia|].
  apply (padding_counts [0; 1; 2]%nat). simpl. lia.
Defined.

(** C5, as stated, fails: on 50 frames the tail padding is 25 copies of
    the last frame, not [25 + 50]. *)
Lemma padding_of_whole_strides :
  no_padded_frames_end 50 = 25%nat
  /\ tail_padding_as_stated 50 = 75%nat
  /\ padded_inputs (seq 0 50)
     = inr (repeat 0%nat 25 ++ seq 0 50 ++ repeat 49%nat 25)
  /\ padded_inputs (seq 0 50)
     <> inr (repeat 0%nat 25 ++ seq 0 50
             ++ repeat 49%nat (tail_padding_as_stated 50)).
Proof.
  split; [reflexivity|]. split; [reflexivity|]. split; [reflexivity|].
  intros H.
  apply (f_equal (fun r : exn + list nat =>
                    match r with inr l => length l | inl _ => 0%nat end)) in H.
  vm_compute in H. discriminate.
Qed.

(** ** The stitcher, the final message and the cursor *)

Section ControllerClaims.

Context {frame : Type}.

Lemma concat_length_const {A : Type} (c : nat) (ls : list (list A)) :
  Forall (fun l => length l = c) ls ->
  length (concat ls) = (c * length ls)%nat.
Proof.
  induction 1 as [|l r Hl Hr IH]; simpl; [lia|].
  rewrite length_app, IH, Hl. lia.
Qed.

Lemma input_shape_ok_nonempty (frames : ndarray frame) :
  (1 <= length (items frames))%nat -> items frames <> [].
Proof. destruct (items frames); simpl; [lia|discriminate]. Qed.

(** C1: for every frame sequence of length [N >= 1] that passes the shape
    assertion, scored by a model that returns one score of each kind per
    frame of a window, [predict_frames] returns two sequences of exactly
    [N] entries each. *)
Theorem stitched_lengths (frames : ndarray frame) (w : world frame) :
  input_shape_ok (self w) frames ->
  (1 <= length (items frames))%nat ->
  model_contract (_model (self w)) ->
  exists single_frame_pred all_frames_pred w',
    predict_frames frames w = (inr (single_frame_pred, all_frames_pred), w')
    /\ length single_frame_pred = length (items frames)
    /\ length all_frames_pred = length (items frames).
Proof.
  intros Hshape HN Hmodel.
  destruct (predict_frames_run frames w Hshape (input_shape_ok_nonempty _ HN))
    as (w_loop & w' & windows & evs & fin & R).
  eexists _, _, w'. split; [exact (fr_result R)|].
  pose proof (strides_cover (length (items frames))) as Hcover.
  assert (Hcores : forall proj : list Q * list Q -> list Q,
            (proj = fst \/ proj = snd) ->
            length (concat (map proj
                      (map (core_pair (_model (self w))) windows)))
            = (50 * length windows)%nat).
  { intros proj Hproj.
    rewrite (concat_length_const 50); [now rewrite !length_map|].
    rewrite !Forall_map.
    eapply Forall_impl; [|exact (fr_full R)].
    cbv beta. intros inp Hinp. destruct (Hmodel _ Hinp) as [H1 H2].
    destruct Hproj as [-> | ->]; unfold core_pair; simpl;
      apply core_length; assumption. }
  rewrite !length_firstn, !Hcores, (fr_count R) by auto.
  lia.
Qed.

(** C2: once the loop over the windows is over, [predict_frames] queues
    exactly one more message, whose end is [max_frame + 1] with
    [max_frame = N] and whose score is 1, whatever the model has scored. *)
Theorem final_event_unconditional (frames : ndarray frame) (w : world frame) :
  input_shape_ok (self w) frames ->
  (1 <= length (items frames))%nat ->
  exists windows predictions w_loop result w' fin,
    input_iterator frames = inr windows
    /\ for_acc frame windows [] window_step (at_loop_entry frames w)
       = (inr predictions, w_loop)
    /\ predict_frames frames w = (inr result, w')
    /\ produced (producer w') = produced (producer w_loop) ++ [fin]
    /\ max_frame (self w') = Z.of_nat (length (items frames))
    /\ end_ fin = max_frame (self w') + 1
    /\ score fin = 1%Q.
Proof.
  intros Hshape HN.
  destruct (predict_frames_run frames w Hshape (input_shape_ok_nonempty _ HN))
    as (w_loop & w' & windows & evs & fin & R).
  exists windows. eexists _, w_loop, _, w', fin.
  split; [exact (fr_windows R)|].
  split; [exact (fr_loop R)|].
  split; [exact (fr_result R)|].
  split; [exact (em_produced _ _ _ (fr_final R))|].
  split; [exact (fr_max R)|].
  split; [|exact (fr_score R)].
  rewrite (fr_max R). exact (fr_end R).
Qed.

(** The messages of one run, all together. *)
Lemma run_messages (frames : ndarray frame) (w w_loop w' : world frame)
  windows evs fin :
  frames_run frames w w_loop w' windows evs fin ->
  emits (at_loop_entry frames w) w' (evs ++ [fin]).
Proof.
  intros R. eapply emits_app.
  - exact (fr_emits R).
  - exact (fr_final R).
Qed.

(** C6, amended: after the windows of a video of [N >= 1] frames,
    whatever the scores, exactly one final message is queued, after all
    the others; it ends at [N + 1] and its score is 1.  Every message
    before it comes from a score above the threshold, and there is none
    when all scores are at or below the threshold. *)
Theorem final_event_after_last_frame (frames : ndarray frame)
  (w : world frame) :
  input_shape_ok (self w) frames ->
  (1 <= length (items frames))%nat ->
  exists windows result w' evs fin,
    input_iterator frames = inr windows
    /\ predict_frames frames w = (inr result, w')
    /\ produced (producer w') = produced (producer w) ++ evs ++ [fin]
    /\ end_ fin = Z.of_nat (length (items frames)) + 1
    /\ score fin = 1%Q
    /\ Forall (fun e => gt (score e) thresh = true) evs
    /\ (all_below (_model (self w)) windows -> evs = []).
Proof.
  intros Hshape HN.
  destruct (predict_frames_run frames w Hshape (input_shape_ok_nonempty _ HN))
    as (w_loop & w' & windows & evs & fin & R).
  exists windows. eexists _, w', evs, fin.
  split; [exact (fr_windows R)|].
  split; [exact (fr_result R)|].
  split; [exact (em_produced _ _ _ (run_messages _ _ _ _ _ _ _ R))|].
  split; [exact (fr_end R)|].
  split; [exact (fr_score R)|].
  split; [|exact (fr_none R)].
  eapply Forall_impl; [|exact (fr_ends R)].
  cbv beta. tauto.
Qed.




Lemma chained_cursor_bounds (B : Z) evs : forall p n,
  chained p n evs -> 0 <= p <= B ->
  Forall (fun e => 0 <= end_ e + 1 <= B) evs ->
  Forall (fun e => 0 <= start e <= B /\ 0 <= end_ e + 1 <= B) evs.
Proof.
  induction evs as [|a r IH]; intros p n Hc Hp Hends; [constructor|].
  destruct Hc as (Hs & Hi & Hr). inversion Hends; subst.
  constructor; [split; [lia|assumption]|].
  eapply IH; eauto.
Qed.

(** C9, amended: while a newly built controller processes a video of
    [N >= 1] frames, the cursor [prev_scene] (the [start] of a message
    before it is emitted, its [end + 1] after) stays between 0 and the
    larger of [50 * ceil(N / 50)] and [N + 2]; after the final message it
    is [N + 2]. *)
Theorem cursor_bounds (frames : ndarray frame) (w : world frame) :
  input_shape_ok (self w) frames ->
  (1 <= length (items frames))%nat ->
  prev_scene (self w) = 0 ->
  let N := Z.of_nat (length (items frames)) in
  let B := Z.max (50 * Z.of_nat (strides (length (items frames)))) (N + 2) in
  exists result w' evs,
    predict_frames frames w = (inr result, w')
    /\ produced (producer w') = produced (producer w) ++ evs
    /\ Forall (fun e => 0 <= start e <= B /\ 0 <= end_ e + 1 <= B) evs
    /\ prev_scene (self w') = N + 2.
Proof.
  intros Hshape HN Hp N B.
  destruct (predict_frames_run frames w Hshape (input_shape_ok_nonempty _ HN))
    as (w_loop & w' & windows & evs & fin & R).
  pose proof (run_messages _ _ _ _ _ _ _ R) as Hem.
  eexists _, w', (evs ++ [fin]).
  split; [exact (fr_result R)|]. split; [exact (em_produced _ _ _ Hem)|].
  split.
  - eapply chained_cursor_bounds; [exact (em_chained _ _ _ Hem)| |].
    + change (prev_scene (self (at_loop_entry frames w)))
        with (prev_scene (self w)).
      rewrite Hp. subst B. lia.
    + apply Forall_app. split.
      * eapply Forall_impl; [|exact (fr_ends R)]. cbv beta.
        intros e [Hr _]. subst B. lia.
      * constructor; [|constructor]. rewrite (fr_end R). subst B N. lia.
  - rewrite (em_cursor _ _ _ (fr_final R)). simpl.
    rewrite (fr_end R). subst N. lia.
Qed.

(** C8, amended: [predict_raw] checks the shape of its input only: with a
    window of the asserted shape it returns the model's output as it is,
    whatever its length, and it raises [AssertionError] otherwise; and
    [predict_frames] raises nothing on account of the model: on a
    well-shaped sequence of [N >= 1] frames it keeps, from any model, the
    entries [25:75] of each output of each window and returns the first
    [N] entries of their concatenation, at most [N] of each kind. *)
Theorem adapter_checks_input_only (frames : ndarray frame) (w : world frame) :
  input_shape_ok (self w) frames ->
  (1 <= length (items frames))%nat ->
  (forall inp, window_shape_ok (self w) inp ->
     predict_raw inp w = (inr (_model (self w) (items inp)), w))
  /\ (forall inp, ~ window_shape_ok (self w) inp ->
        predict_raw inp w = (inl AssertionError, w))
  /\ exists windows single_frame_pred all_frames_pred w',
       input_iterator frames = inr windows
       /\ predict_frames frames w
          = (inr (single_frame_pred, all_frames_pred), w')
       /\ single_frame_pred
          = firstn (length (items frames))
              (concat (map (fun inp =>
                         slice 25 75 (fst (_model (self w) (items inp))))
                         windows))
       /\ all_frames_pred
          = firstn (length (items frames))
              (concat (map (fun inp =>
                         slice 25 75 (snd (_model (self w) (items inp))))
                         windows))
       /\ (length single_frame_pred <= length (items frames))%nat
       /\ (length all_frames_pred <= length (items frames))%nat.
Proof.
  intros Hshape HN. split; [|split].
  - intros inp. apply predict_raw_ok.
  - intros inp Hbad. rewrite predict_raw_eq.
    destruct ((length (batch_shape inp) =? 5)%nat
              && list_eqb (skipn 2 (batch_shape inp)) (_input_size (self w)))
      eqn:E; [|reflexivity].
    exfalso. apply Hbad. apply andb_prop in E. destruct E as [E1 E2].
    split; [now apply Nat.eqb_eq | now apply list_eqb_eq].
  - destruct (predict_frames_run frames w Hshape
                (input_shape_ok_nonempty _ HN))
      as (w_loop & w' & windows & evs & fin & R).
    exists windows. eexists _, _, w'.
    split; [exact (fr_windows R)|]. split; [exact (fr_result R)|].
    rewrite !map_map. cbn [core_pair fst snd]. unfold core.
    split; [reflexivity|]. split; [reflexivity|].
    rewrite !length_firstn. lia.
Qed.

End ControllerClaims.

(** ** Concrete runs *)

Lemma silent_model_contract : model_contract silent_model.
Proof.
  intros window H. unfold silent_model. simpl. now rewrite !length_map.
Qed.

Lemma clip_shape_ok (N : nat) (model : saved_model nat) :
  input_shape_ok (self (fresh model)) (clip N).
Proof. split; reflexivity. Qed.

(** 120 frames with a single score above the threshold, at frame 60: one
    message for the cut, delivered, and the final one, still queued. *)
Example one_cut_in_120_frames :
  let w' := snd (predict_frames (clip 120) (fresh cut_at_60)) in
  producer w'
  = {| delivered := [ {| video := ""; start := 0; end_ := 60;
                         score := 9 # 10; index := 1 |} ];
       queue := [ {| video := ""; start := 61; end_ := 121;
                     score := 1; index := 2 |} ] |}
  /\ prev_scene (self w') = 122
  /\ scene_number (self w') = 3.
Proof. vm_compute. auto. Qed.

(** Three frames, scored 0 throughout. *)
Lemma stitched_lengths_witness :
  input_shape_ok (self (fresh silent_model)) (clip 3)
  /\ (1 <= length (items (clip 3)))%nat
  /\ model_contract (_model (self (fresh silent_model)))
  /\ exists single_frame_pred all_frames_pred w',
       predict_frames (clip 3) (fresh silent_model)
       = (inr (single_frame_pred, all_frames_pred), w')
       /\ length single_frame_pred = length (items (clip 3))
       /\ length all_frames_pred = length (items (clip 3)).
Proof.
  split; [apply clip_shape_ok|]. split; [simpl; lia|].
  split; [exact silent_model_contract|].
  apply (stitched_lengths (clip 3) (fresh silent_model)).
  - apply clip_shape_ok.
  - simpl. lia.
  - exact silent_model_contract.
Defined.

Lemma final_event_unconditional_witness :
  input_shape_ok (self (fresh silent_model)) (clip 3)
  /\ (1 <= length (items (clip 3)))%nat
  /\ exists windows predictions w_loop result w' fin,
       input_iterator (clip 3) = inr windows
       /\ for_acc nat windows [] window_step
            (at_loop_entry (clip 3) (fresh silent_model))
          = (inr predictions, w_loop)
       /\ predict_frames (clip 3) (fresh silent_model) = (inr result, w')
       /\ produced (producer w') = produced (producer w_loop) ++ [fin]
       /\ max_frame (self w') = Z.of_nat (length (items (clip 3)))
       /\ end_ fin = max_frame (self w') + 1
       /\ score fin = 1%Q.
Proof.
  split; [apply clip_shape_ok|]. split; [simpl; lia|].
  apply (final_event_unconditional (clip 3) (fresh silent_model)).
  - apply clip_shape_ok.
  - simpl. lia.
Defined.

Lemma final_event_after_last_frame_witness :
  input_shape_ok (self (fresh silent_model)) (clip 3)
  /\ (1 <= length (items (clip 3)))%nat
  /\ exists windows result w' evs fin,
       input_iterator (clip 3) = inr windows
       /\ predict_frames (clip 3) (fresh silent_model) = (inr result, w')
       /\ produced (producer w')
          = produced (producer (fresh silent_model)) ++ evs ++ [fin]
       /\ end_ fin = Z.of_nat (length (items (clip 3))) + 1
       /\ score fin = 1%Q
       /\ Forall (fun e => gt (score e) thresh = true) evs
       /\ (all_below (_model (self (fresh silent_model))) windows -> evs = []).
Proof.
  split; [apply clip_shape_ok|]. split; [simpl; lia|].
  apply (final_event_after_last_frame (clip 3) (fresh silent_model)).
  - apply clip_shape_ok.
  - simpl. lia.
Defined.

(** C6, as stated, fails: on one frame scored 0 the only message ends at
    frame 2; none ends at frame [N = 1]. *)
Lemma final_event_not_at_N :
  let evs :=
    produced (producer (snd (predict_frames (clip 1) (fresh silent_model)))) in
  evs = [ {| video := ""; start := 0; end_ := 2; score := 1; index := 1 |} ]
  /\ ~ final_event_at (length (items (clip 1))) evs.
Proof.
  assert (E : produced
                (producer (snd (predict_frames (clip 1) (fresh silent_model))))
              = [ {| video := ""; start := 0; end_ := 2; score := 1;
                     index := 1 |} ]) by (vm_compute; reflexivity).
  cbv zeta. rewrite E. split; [reflexivity|].
  intros (e & Hin & Hend & _).
  destruct Hin as [<- | []]. simpl in Hend. discriminate.
Qed.



Lemma cursor_bounds_witness :
  input_shape_ok (self (fresh cut_at_60)) (clip 120)
  /\ (1 <= length (items (clip 120)))%nat
  /\ prev_scene (self (fresh cut_at_60)) = 0
  /\ exists result w' evs,
       predict_frames (clip 120) (fresh cut_at_60) = (inr result, w')
       /\ produced (producer w')
          = produced (producer (fresh cut_at_60)) ++ evs
       /\ Forall (fun e => 0 <= start e <= 150 /\ 0 <= end_ e + 1 <= 150) evs
       /\ prev_scene (self w') = 122.
Proof.
  split; [apply clip_shape_ok|]. split; [simpl; lia|].
  split; [reflexivity|].
  apply (cursor_bounds (clip 120) (fresh cut_at_60)).
  - apply clip_shape_ok.
  - simpl. lia.
  - reflexivity.
Defined.

(** C9, as stated, fails: after one frame scored 0 the cursor stands at
    3, past [N = 1]. *)
Lemma cursor_passes_N :
  let c := prev_scene (self (snd (predict_frames (clip 1) (fresh silent_model)))) in
  c = 3 /\ ~ (0 <= c <= Z.of_nat (length (items (clip 1)))).
Proof.
  assert (E : prev_scene
                (self (snd (predict_frames (clip 1) (fresh silent_model)))) = 3)
    by (vm_compute; reflexivity).
  cbv zeta. rewrite E. split; [reflexivity|]. simpl. lia.
Qed.

Lemma adapter_checks_input_only_witness :
  input_shape_ok (self (fresh mute_model)) (clip 3)
  /\ (1 <= length (items (clip 3)))%nat
  /\ (forall inp, window_shape_ok (self (fresh mute_model)) inp ->
        predict_raw inp (fresh mute_model)
        = (inr (_model (self (fresh mute_model)) (items inp)),
           fresh mute_model))
  /\ (forall inp, ~ window_shape_ok (self (fresh mute_model)) inp ->
        predict_raw inp (fresh mute_model)
        = (inl AssertionError, fresh mute_model))
  /\ exists windows single_frame_pred all_frames_pred w',
       input_iterator (clip 3) = inr windows
       /\ predict_frames (clip 3) (fresh mute_model)
          = (inr (single_frame_pred, all_frames_pred), w')
       /\ single_frame_pred
          = firstn (length (items (clip 3)))
              (concat (map (fun inp =>
                         slice 25 75
                           (fst (_model (self (fresh mute_model)) (items inp))))
                         windows))
       /\ all_frames_pred
          = firstn (length (items (clip 3)))
              (concat (map (fun inp =>
                         slice 25 75
                           (snd (_model (self (fresh mute_model)) (items inp))))
                         windows))
       /\ (length single_frame_pred <= length (items (clip 3)))%nat
       /\ (length all_frames_pred <= length (items (clip 3)))%nat.
Proof.
  split; [apply clip_shape_ok|]. split; [simpl; lia|].
  apply (adapter_checks_input_only (clip 3) (fresh mute_model)).
  - apply clip_shape_ok.
  - simpl. lia.
Defined.

(** C8, as stated, fails: a model that returns no score for a window of
    100 frames is not refused: [predict_raw] returns its empty output, and
    [predict_frames] goes on to return two empty sequences. *)
Lemma wrong_output_length_accepted :
  length (items (clip 100)) = 100%nat
  /\ length (fst (mute_model (items (clip 100)))) <> 100%nat
  /\ predict_raw (clip 100) (fresh mute_model)
     = (inr ([], []), fresh mute_model)
  /\ fst (predict_frames (clip 1) (fresh mute_model)) = inr ([], []).
Proof.
  split; [reflexivity|]. split; [simpl; discriminate|].
  split; [reflexivity|]. vm_compute. reflexivity.
Qed.

(** C7: the code does not reset the cursor and the counter between
    videos.  Two files of one frame each, scored 0, on one controller: the
    message of the second file starts at frame 3 with index 2; processed
    alone, the same file gives a message that starts at 0 with index 1. *)
Theorem second_video_inherits_cursor :
  produced (producer (snd (main_loop one_frame_decoder ["a"; "b"]%string
                             (fresh silent_model))))
  = [ {| video := "a"; start := 0; end_ := 2; score := 1; index := 1 |};
      {| video := "b"; start := 3; end_ := 2; score := 1; index := 2 |} ]
  /\ produced (producer (snd (main_loop one_frame_decoder ["b"]%string
                                (fresh silent_model))))
     = [ {| video := "b"; start := 0; end_ := 2; score := 1; index := 1 |} ].
Proof. split; vm_compute; reflexivity. Qed.

(** ** More on the scene extractor *)

Module ScenesMore.
Import Scenes ScenesFacts.

Lemma binarize_cons threshold p ps :
  binarize threshold (p :: ps)
  = astype_uint8 (gt p threshold) :: binarize threshold ps.
Proof. reflexivity. Qed.

(** What [predictions_to_scenes] returns on a non-empty sequence. *)
Lemma scenes_of_cons threshold p ps :
  predictions_to_scenes (p :: ps) threshold
  = let b := astype_uint8 (gt p threshold) in
    let bs := binarize threshold ps in
    match run 1 b 0 bs with
    | [] => inr [(0, Z.of_nat (length (b :: bs)) - 1)]
    | iv :: ivs => inr (iv :: ivs)
    end.
Proof.
  unfold predictions_to_scenes. rewrite binarize_cons, loop_entry.
  cbv zeta. destruct (run 1 _ 0 _); reflexivity.
Qed.

(** X1: [predictions_to_scenes] never raises, and always returns at least one
    interval: the name [i] is bound whenever the final append reads it. *)
Theorem scenes_total_nonempty (predictions : list Q) (threshold : Q) :
  exists iv ivs, predictions_to_scenes predictions threshold = inr (iv :: ivs).
Proof.
  destruct predictions as [|p ps].
  - exists (0, -1), []. reflexivity.
  - rewrite scenes_of_cons. cbv zeta.
    destruct (run 1 _ 0 _) as [|iv ivs]; eauto.
Qed.

Lemma run_zeros l : forall k st,
  Forall (eq 0) l -> run k 0 st l = [(st, k + Z.of_nat (length l) - 1)].
Proof.
  induction l as [|x r IH]; intros k st H.
  - simpl. do 2 f_equal. lia.
  - inversion H; subst. simpl run. rewrite IH by assumption.
    do 2 f_equal. simpl length. lia.
Qed.

(** X2: A sequence with no score above the threshold is one scene, from the
    first frame to the last. *)
Theorem scenes_without_boundary (predictions : list Q) (threshold : Q) :
  Forall (fun p => gt p threshold = false) predictions ->
  predictions_to_scenes predictions threshold
  = inr [(0, Z.of_nat (length predictions) - 1)].
Proof.
  intros H. destruct predictions as [|p ps]; [reflexivity|].
  inversion H as [|? ? Hp Hps]; subst.
  rewrite scenes_of_cons, Hp. cbv zeta. simpl astype_uint8.
  rewrite run_zeros.
  - rewrite binarize_length. do 3 f_equal. simpl length. lia.
  - unfold binarize. apply Forall_map.
    eapply Forall_impl; [|exact Hps]. cbv beta. intros q Hq. now rewrite Hq.
Qed.

Lemma scenes_without_boundary_witness :
  Forall (fun p => gt p thresh = false) [0; 1 # 2; 3 # 4]%Q
  /\ predictions_to_scenes [0; 1 # 2; 3 # 4]%Q thresh
     = inr [(0, Z.of_nat (length [0; 1 # 2; 3 # 4]%Q) - 1)].
Proof.
  assert (H : Forall (fun p => gt p thresh = false) [0; 1 # 2; 3 # 4]%Q)
    by (repeat constructor).
  split; [exact H|].
  apply (scenes_without_boundary [0; 1 # 2; 3 # 4]%Q thresh H).
Defined.

(** X3: A sequence whose every score is above the threshold gives the single
    interval of the fallback, [[0, N - 1]]. *)
Theorem scenes_all_boundaries (predictions : list Q) (threshold : Q) :
  Forall (fun p => gt p threshold = true) predictions ->
  predictions_to_scenes predictions threshold
  = inr [(0, Z.of_nat (length predictions) - 1)].
Proof.
  intros H. destruct predictions as [|p ps]; [reflexivity|].
  rewrite scenes_of_cons. cbv zeta.
  rewrite run_entry_all_ones.
  - rewrite <- binarize_cons, binarize_length. reflexivity.
  - rewrite <- binarize_cons. apply binarize_bits.
  - rewrite <- binarize_cons. unfold binarize. apply Forall_map.
    eapply Forall_impl; [|exact H]. cbv beta. intros q Hq. now rewrite Hq.
Qed.

Lemma scenes_all_boundaries_witness :
  Forall (fun p => gt p thresh = true) [1; 9 # 10; 4 # 5]%Q
  /\ predictions_to_scenes [1; 9 # 10; 4 # 5]%Q thresh
     = inr [(0, Z.of_nat (length [1; 9 # 10; 4 # 5]%Q) - 1)].
Proof.
  assert (H : Forall (fun p => gt p thresh = true) [1; 9 # 10; 4 # 5]%Q)
    by (repeat constructor).
  split; [exact H|].
  apply (scenes_all_boundaries [1; 9 # 10; 4 # 5]%Q thresh H).
Defined.

Lemma zrange_snoc a n :
  zrange a (S n) = zrange a n ++ [a + Z.of_nat n].
Proof. unfold zrange. now rewrite seq_S, map_app. Qed.

Lemma zrange_cons a n : zrange a (S n) = a :: zrange (a + 1) n.
Proof.
  unfold zrange. simpl seq. simpl map. rewrite Z.add_0_r. f_equal.
  rewrite <- seq_shift, map_map. apply map_ext. intros d. lia.
Qed.

Lemma interval_indices_zrange a b :
  interval_indices (a, b) = zrange a (Z.to_nat (b - a + 1)).
Proof. reflexivity. Qed.

(** Without two boundary frames in a row, the intervals of [run] list the
    open scene and then every position from [k] on, once and in order. *)
Lemma run_concatenated l : forall k tp st,
  bits (tp :: l) -> no_adjacent_boundaries (tp :: l) ->
  1 <= k -> (tp = 0 -> st < k) ->
  concatenated (run k tp st l)
  = (if tp =? 0 then zrange st (Z.to_nat (k - st)) else [])
    ++ zrange k (length l).
Proof.
  induction l as [|x r IH]; intros k tp st Hb Hc Hk Hopen.
  - inversion Hb as [|? ? Htp _]; subst. destruct Htp as [-> | ->]; simpl run.
    + unfold concatenated. cbn [flat_map].
      rewrite interval_indices_zrange, !app_nil_r. simpl Z.eqb. cbv iota.
      f_equal. lia.
    + reflexivity.
  - inversion Hb as [|? ? Htp Hb']; subst.
    inversion Hb' as [|? ? Hx Hr]; subst.
    destruct Hc as [Hadj Hc'].
    assert (Hbx : bits (x :: r)) by (constructor; assumption).
    cbn [length]. rewrite zrange_cons.
    destruct Htp as [-> | ->]; destruct Hx as [-> | ->]; simpl run.
    + specialize (Hopen eq_refl).
      rewrite (IH (k + 1) 0 st) by (auto; lia). simpl Z.eqb. cbv iota.
      replace (Z.to_nat (k + 1 - st)) with (S (Z.to_nat (k - st))) by lia.
      rewrite zrange_snoc, <- app_assoc. cbn [app].
      do 2 f_equal. lia.
    + specialize (Hopen eq_refl).
      replace (k =? 0) with false by (symmetry; apply Z.eqb_neq; lia).
      cbn [negb andb Z.eqb app]. unfold concatenated. cbn [flat_map].
      change (flat_map interval_indices (run (k + 1) 1 st r))
        with (concatenated (run (k + 1) 1 st r)).
      rewrite (IH (k + 1) 1 st) by (auto; try lia; intros; discriminate).
      rewrite interval_indices_zrange.
      simpl Z.eqb. cbv iota. cbn [app].
      replace (Z.to_nat (k - st + 1)) with (S (Z.to_nat (k - st))) by lia.
      rewrite zrange_snoc, <- app_assoc. cbn [app].
      do 2 f_equal. lia.
    + rewrite (IH (k + 1) 0 k) by (auto; lia). simpl Z.eqb. cbv iota.
      replace (Z.to_nat (k + 1 - k)) with 1%nat by lia.
      rewrite (zrange_cons k 0). reflexivity.
    + exfalso. apply Hadj. auto.
Qed.

(** X4: When the first frame is not a boundary and no two boundary frames
    follow each other, the intervals, concatenated, are exactly the indices
    [0 .. N-1]: no gap and no overlap. *)
Theorem scenes_partition_when_isolated (predictions : list Q) (threshold : Q) :
  hd 1 (binarize threshold predictions) = 0 ->
  no_adjacent_boundaries (binarize threshold predictions) ->
  exists ivs,
    predictions_to_scenes predictions threshold = inr ivs
    /\ partitions (length predictions) ivs.
Proof.
  intros Hhd Hadj. destruct predictions as [|p ps]; [discriminate|].
  rewrite binarize_cons in Hhd, Hadj. simpl hd in Hhd.
  pose proof (binarize_bits threshold (p :: ps)) as Hb.
  rewrite binarize_cons in Hb. rewrite Hhd in Hadj, Hb.
  pose proof (run_concatenated (binarize threshold ps) 1 0 0 Hb Hadj) as Hcat.
  rewrite scenes_of_cons, Hhd. cbv zeta.
  assert (Hall : concatenated (run 1 0 0 (binarize threshold ps))
                 = all_indices (length (p :: ps))).
  { rewrite Hcat by lia. simpl Z.eqb. cbv iota.
    change (Z.to_nat (1 - 0)) with 1%nat.
    cbn [length]. rewrite binarize_length.
    change (zrange 0 1) with [0]. simpl app.
    rewrite <- (zrange_cons 0). unfold zrange, all_indices.
    apply map_ext. intros d. lia. }
  destruct (run 1 0 0 (binarize threshold ps)) as [|iv ivs].
  - discriminate.
  - exists (iv :: ivs). split; [reflexivity|exact Hall].
Qed.

Lemma scenes_partition_when_isolated_witness :
  hd 1 (binarize thresh [0; 1; 0; 0; 1; 0]%Q) = 0
  /\ no_adjacent_boundaries (binarize thresh [0; 1; 0; 0; 1; 0]%Q)
  /\ exists ivs,
       predictions_to_scenes [0; 1; 0; 0; 1; 0]%Q thresh = inr ivs
       /\ partitions (length [0; 1; 0; 0; 1; 0]%Q) ivs.
Proof.
  assert (H1 : hd 1 (binarize thresh [0; 1; 0; 0; 1; 0]%Q) = 0)
    by reflexivity.
  assert (H2 : no_adjacent_boundaries (binarize thresh [0; 1; 0; 0; 1; 0]%Q)).
  { simpl. repeat split; intros [? ?]; discriminate. }
  split; [exact H1|]. split; [exact H2|].
  apply (scenes_partition_when_isolated [0; 1; 0; 0; 1; 0]%Q thresh H1 H2).
Defined.

(** Inside an interval of [run], before its end, no position of [l] holds
    a boundary; and an interval ends on a boundary or on the last
    position. *)
Lemma run_interior l : forall k tp st a b,
  bits (tp :: l) -> 1 <= k -> 0 <= st -> (tp = 0 -> st < k) ->
  In (a, b) (run k tp st l) ->
  (forall n, (n < length l)%nat -> a <= k + Z.of_nat n < b -> nth n l 1 = 0)
  /\ (b = k + Z.of_nat (length l) - 1
      \/ exists n, (n < length l)%nat /\ b = k + Z.of_nat n /\ nth n l 1 = 1).
Proof.
  induction l as [|x r IH]; intros k tp st a b Hb Hk Hst Hopen Hin.
  - split; [intros n Hn; simpl in Hn; lia|]. left.
    simpl in Hin. destruct (tp =? 0); simpl in Hin; [|tauto].
    destruct Hin as [E | []]. inversion E; subst. simpl. lia.
  - inversion Hb as [|? ? Htp Hb']; subst.
    inversion Hb' as [|? ? Hx Hr]; subst.
    assert (Hbx : bits (x :: r)) by (constructor; assumption).
    assert (Hstep : forall st1,
      0 <= st1 -> (x = 0 -> st1 < k + 1) ->
      In (a, b) (run (k + 1) x st1 r) ->
      (x = 0 \/ k + 1 <= a) ->
      (forall n, (n < length (x :: r))%nat ->
         a <= k + Z.of_nat n < b -> nth n (x :: r) 1 = 0)
      /\ (b = k + Z.of_nat (length (x :: r)) - 1
          \/ exists n, (n < length (x :: r))%nat
                       /\ b = k + Z.of_nat n /\ nth n (x :: r) 1 = 1)).
    { intros st1 Hst1 Hopen1 Hin1 Hhead.
      destruct (IH (k + 1) x st1 a b Hbx ltac:(lia) Hst1 Hopen1 Hin1)
        as [Hint Hend].
      split.
      - intros [|m] Hn Hr'.
        + simpl nth. destruct Hhead as [E | E]; [exact E|lia].
        + simpl nth. simpl in Hn. apply Hint; lia.
      - destruct Hend as [E | (m & Hm & E & Hone)].
        + left. simpl length. lia.
        + right. exists (S m). simpl length. simpl nth.
          split; [lia|]. split; [lia|exact Hone]. }
    assert (Hafter : forall st1,
      In (a, b) (run (k + 1) 1 st1 r) -> bits (1 :: r) -> 0 <= st1 ->
      k + 1 <= a).
    { intros st1 Hin1 Hb1 Hst1.
      pose proof (run_ordered r (k + 1) 1 st1 Hb1 ltac:(lia) Hst1
                    ltac:(intros; discriminate)) as Ho.
      simpl Z.eqb in Ho. cbv iota in Ho.
      pose proof (ordered_In _ _ _ _ _ Ho Hin1). lia. }
    destruct Htp as [-> | ->]; destruct Hx as [-> | ->]; simpl run in Hin.
    + apply (Hstep st); auto; try lia;
        try (intros _; specialize (Hopen eq_refl); lia).
    + replace (k =? 0) with false in Hin by (symmetry; apply Z.eqb_neq; lia).
      simpl in Hin. destruct Hin as [E | Hin].
      * inversion E; subst. split.
        -- intros n Hn Hr'. lia.
        -- right. exists 0%nat. simpl. split; [lia|]. split; [lia|reflexivity].
      * apply (Hstep st); auto; try lia; try (intros; discriminate).
        right. eapply Hafter; eauto.
    + apply (Hstep k); auto; lia.
    + apply (Hstep st); auto; try lia; try (intros; discriminate).
      right. eapply Hafter; eauto.
Qed.

(** X5: Unless every frame is a boundary, a scene holds no boundary frame
    before its last frame, and it ends on a boundary frame or on the last
    frame of the sequence. *)
Theorem scenes_interior_free (predictions : list Q) (threshold : Q)
  (ivs : list (Z * Z)) (a b : Z) :
  predictions_to_scenes predictions threshold = inr ivs ->
  ~ Forall (eq 1) (binarize threshold predictions) ->
  In (a, b) ivs ->
  (forall n, a <= Z.of_nat n < b ->
     nth n (binarize threshold predictions) 1 = 0)
  /\ (b = Z.of_nat (length predictions) - 1
      \/ nth (Z.to_nat b) (binarize threshold predictions) 1 = 1).
Proof.
  intros Hrun Hnot Hin. destruct predictions as [|p ps].
  { exfalso. apply Hnot. constructor. }
  rewrite scenes_of_cons in Hrun. cbv zeta in Hrun.
  rewrite binarize_cons in *.
  set (x := astype_uint8 (gt p threshold)) in *.
  set (bs := binarize threshold ps) in *.
  pose proof (binarize_bits threshold (p :: ps)) as Hb.
  rewrite binarize_cons in Hb. fold x bs in Hb.
  pose proof (run_entry_ordered x bs Hb) as Ho.
  pose proof (fun n => run_entry_covered x bs n Hb) as Hcov.
  assert (Hlen : length bs = length ps) by apply binarize_length.
  destruct (run 1 x 0 bs) as [|iv rest] eqn:ER.
  { exfalso. apply Hnot. apply Forall_nth. intros m d Hm.
    assert (Hbit : nth m (x :: bs) d = 0 \/ nth m (x :: bs) d = 1)
      by (apply (proj1 (Forall_nth _ (x :: bs)) Hb m d Hm)).
    destruct Hbit as [E | E]; [|now rewrite E].
    exfalso. apply (covered_nil (Z.of_nat m)). apply (Hcov m Hm). left.
    rewrite (nth_indep _ 1 d Hm). exact E. }
  inversion Hrun; subst ivs. rewrite <- ER in Hin, Ho.
  pose proof (ordered_In _ _ _ _ _ Ho Hin) as Hrange.
  assert (Hopen : x = 0 -> 0 < 1) by lia.
  destruct (run_interior bs 1 x 0 a b Hb ltac:(lia) ltac:(lia) Hopen Hin)
    as [Hint Hend].
  split.
  - intros [|m] Hr.
    + simpl nth. inversion Hb as [|? ? Hx _]; subst.
      destruct Hx as [E | E]; [exact E|exfalso].
      assert (Hc : covered (Z.of_nat 0) (iv :: rest)).
      { rewrite <- ER. exists a, b. split; [exact Hin|simpl; lia]. }
      apply (proj1 (Hcov 0%nat ltac:(simpl; lia))) in Hc.
      simpl nth in Hc. destruct Hc as [Hc | [Hc _]]; [congruence|lia].
    + simpl nth. apply Hint; [|lia].
      cbn [length] in Hrange. lia.
  - destruct Hend as [E | (m & Hm & E & Hone)].
    + left. cbn [length]. lia.
    + right. subst b.
      replace (Z.to_nat (1 + Z.of_nat m)) with (S m) by lia.
      exact Hone.
Qed.

Lemma scenes_interior_free_witness :
  predictions_to_scenes [0; 0; 1; 1; 0]%Q thresh = inr [(0, 2); (4, 4)]
  /\ ~ Forall (eq 1) (binarize thresh [0; 0; 1; 1; 0]%Q)
  /\ In (0, 2) [(0, 2); (4, 4)]
  /\ (forall n, 0 <= Z.of_nat n < 2 ->
        nth n (binarize thresh [0; 0; 1; 1; 0]%Q) 1 = 0)
  /\ (2 = Z.of_nat (length [0; 0; 1; 1; 0]%Q) - 1
      \/ nth (Z.to_nat 2) (binarize thresh [0; 0; 1; 1; 0]%Q) 1 = 1).
Proof.
  assert (H1 : predictions_to_scenes [0; 0; 1; 1; 0]%Q thresh
               = inr [(0, 2); (4, 4)]) by reflexivity.
  assert (H2 : ~ Forall (eq 1) (binarize thresh [0; 0; 1; 1; 0]%Q)).
  { intros H. inversion H; discriminate. }
  assert (H3 : In (0, 2) [(0, 2); (4, 4)]) by (simpl; auto).
  split; [exact H1|]. split; [exact H2|]. split; [exact H3|].
  apply (scenes_interior_free [0; 0; 1; 1; 0]%Q thresh
           [(0, 2); (4, 4)] 0 2 H1 H2 H3).
Defined.

End ScenesMore.

(** ** More on the window generator *)

Section WindowMore.

Context {frame : Type}.

Lemma firstn_add_skipn {A : Type} (x y : nat) (l : list A) :
  firstn (x + y) l = firstn x l ++ firstn y (skipn x l).
Proof.
  revert l. induction x as [|x IH]; intros l; [reflexivity|].
  destruct l as [|a r]; simpl.
  - now rewrite firstn_nil.
  - now rewrite IH.
Qed.

(** Two slices that meet make one slice. *)
Lemma slice_app {A : Type} (a b c : nat) (l : list A) :
  (a <= b <= c)%nat -> slice a b l ++ slice b c l = slice a c l.
Proof.
  intros H. unfold slice.
  replace (c - a)%nat with ((b - a) + (c - b))%nat by lia.
  rewrite firstn_add_skipn, skipn_skipn.
  replace (b - a + a)%nat with b by lia. reflexivity.
Qed.

(** A slice of a slice is a slice. *)
Lemma slice_slice {A : Type} (a b c d : nat) (l : list A) :
  (c + b <= d)%nat -> slice a b (slice c d l) = slice (c + a) (c + b) l.
Proof.
  intros H. unfold slice.
  rewrite skipn_firstn_comm, firstn_firstn, skipn_skipn.
  f_equal; [lia|]. f_equal. lia.
Qed.

Lemma firstn_repeat {A : Type} (x : A) (k n : nat) :
  (k <= n)%nat -> firstn k (repeat x n) = repeat x k.
Proof.
  revert n. induction k as [|k IH]; intros n H; [reflexivity|].
  destruct n as [|n]; [lia|]. simpl. rewrite IH by lia. reflexivity.
Qed.

(** The cores of the windows yielded from [ptr] on are one stretch of the
    padded sequence. *)
Lemma yield_windows_cores (padded : list frame) (ptr : nat) :
  concat (map (slice 25 75) (yield_windows padded ptr))
  = slice (ptr + 25)
          (ptr + 25 + 50 * length (yield_windows padded ptr)) padded.
Proof.
  funelim (yield_windows padded ptr).
  - cbn [map concat length]. rewrite H.
    rewrite slice_slice by lia.
    replace (ptr + 50 + 25)%nat with (ptr + 75)%nat by lia.
    rewrite slice_app by lia. f_equal. lia.
  - cbn [map concat length]. unfold slice.
    replace (ptr + 25 + 50 * 0 - (ptr + 25))%nat with 0%nat by lia.
    reflexivity.
Qed.

(** The [k]-th window is the hundred frames of the padded sequence that
    start [50 * k] frames after [ptr]. *)
Lemma yield_windows_nth (padded : list frame) (ptr : nat) :
  forall k out,
    nth_error (yield_windows padded ptr) k = Some out ->
    out = slice (ptr + 50 * k) (ptr + 50 * k + 100) padded
    /\ (ptr + 50 * k + 100 <= length padded)%nat.
Proof.
  funelim (yield_windows padded ptr); intros k out Hk.
  - destruct k as [|k].
    + simpl in Hk. inversion Hk; subst.
      rewrite Nat.mul_0_r, Nat.add_0_r. split; [reflexivity|lia].
    + simpl in Hk. destruct (H k out Hk) as [E Hle].
      replace (ptr + 50 * S k)%nat with (ptr + 50 + 50 * k)%nat by lia.
      split; assumption.
  - destruct k; discriminate.
Qed.

(** X6: The generator on [N >= 1] frames: it yields [ceil(N / 50)] windows,
    each of exactly 100 frames of the shape of the input's frames. *)
Theorem windows_full_and_counted (frames : ndarray frame) :
  (1 <= length (items frames))%nat ->
  exists windows,
    input_iterator frames = inr windows
    /\ length windows = strides (length (items frames))
    /\ Forall (fun inp =>
         length (items inp) = 100%nat
         /\ item_shape inp = item_shape frames) windows.
Proof.
  intros HN.
  assert (Hne : items frames <> []).
  { destruct (items frames); [simpl in HN; lia|discriminate]. }
  destruct (input_iterator_windows frames Hne) as (padded & _ & Hit & Hc).
  eexists. split; [exact Hit|]. split; [now rewrite length_map|].
  rewrite Forall_map. cbn [items item_shape].
  eapply Forall_impl; [|apply yield_windows_full]. cbv beta. auto.
Qed.

(** X7: The cores of the windows, in order, are the frames of the video, each
    once, followed by copies of the last frame up to a whole number of
    strides. *)
Theorem cores_tile_the_frames (frames : ndarray frame) :
  (1 <= length (items frames))%nat ->
  exists first windows,
    hd_error (items frames) = Some first
    /\ input_iterator frames = inr windows
    /\ concat (map (fun inp => slice 25 75 (items inp)) windows)
       = items frames
         ++ repeat (last (items frames) first)
              (50 * strides (length (items frames))
               - length (items frames)).
Proof.
  intros HN.
  assert (Hne : items frames <> []).
  { destruct (items frames); [simpl in HN; lia|discriminate]. }
  destruct (input_iterator_windows frames Hne) as (padded & Hpad & Hit & Hc).
  destruct (items frames) as [|first rest] eqn:E; [congruence|].
  exists first. eexists. split; [reflexivity|]. split; [exact Hit|].
  rewrite map_map. cbn [items].
  change (fun x : list frame => slice 25 75 x) with (@slice frame 25 75).
  rewrite yield_windows_cores, Hc.
  pose proof (padded_length _ _ _ Hpad) as Hlen. fold (strides (length (first :: rest))) in Hlen.
  rewrite padded_inputs_cons in Hpad.
  assert (Hp : padded
               = repeat first 25 ++ (first :: rest)
                 ++ repeat (last (first :: rest) first)
                      (no_padded_frames_end (length (first :: rest))))
    by congruence.
  set (N := length (first :: rest)) in *.
  set (P := no_padded_frames_end N) in *.
  pose proof (strides_cover N) as Hcover.
  assert (HP : (25 + N + P = 50 * strides N + 50)%nat).
  { rewrite <- Hlen, Hp, !length_app, !repeat_length. fold N. lia. }
  unfold slice. rewrite Hp.
  rewrite skipn_app, repeat_length.
  replace (0 + 25 - 25)%nat with 0%nat by lia.
  rewrite skipn_all2 by (rewrite repeat_length; lia).
  rewrite app_nil_l, skipn_0.
  replace (0 + 25 + 50 * strides N - (0 + 25))%nat
    with (N + (50 * strides N - N))%nat by lia.
  rewrite firstn_app. fold N.
  rewrite firstn_all2 by (fold N; lia).
  f_equal.
  replace (N + (50 * strides N - N) - N)%nat
    with (50 * strides N - N)%nat by lia.
  apply firstn_repeat. lia.
Qed.

(** X8: Consecutive windows overlap by half: the last 50 frames of one are the
    first 50 frames of the next. *)
Theorem windows_overlap (frames : ndarray frame) windows k inp1 inp2 :
  input_iterator frames = inr windows ->
  nth_error windows k = Some inp1 ->
  nth_error windows (S k) = Some inp2 ->
  skipn 50 (items inp1) = firstn 50 (items inp2).
Proof.
  unfold input_iterator. intros Hit H1 H2.
  destruct (padded_inputs (items frames)) as [e|padded]; [discriminate|].
  inversion Hit; subst windows; clear Hit.
  rewrite nth_error_map in H1, H2.
  destruct (nth_error (yield_windows padded 0) k) as [out1|] eqn:E1;
    [|discriminate].
  destruct (nth_error (yield_windows padded 0) (S k)) as [out2|] eqn:E2;
    [|discriminate].
  simpl in H1, H2. inversion H1; subst inp1. inversion H2; subst inp2.
  cbn [items].
  destruct (yield_windows_nth _ _ _ _ E1) as [-> Hle1].
  destruct (yield_windows_nth _ _ _ _ E2) as [-> Hle2].
  set (p := (0 + 50 * k)%nat) in *.
  replace (0 + 50 * S k)%nat with (p + 50)%nat in * by (subst p; lia).
  assert (Hx : length (slice p (p + 100) padded) = 100%nat)
    by (rewrite slice_length; lia).
  set (X := slice p (p + 100) padded) in *.
  transitivity (slice 50 100 X).
  - unfold slice. symmetry. apply firstn_all2. rewrite length_skipn. lia.
  - subst X. rewrite slice_slice by lia.
    change (firstn 50 (slice (p + 50) (p + 50 + 100) padded))
      with (slice 0 50 (slice (p + 50) (p + 50 + 100) padded)).
    rewrite slice_slice by lia. f_equal; lia.
Qed.

End WindowMore.

Lemma windows_full_and_counted_witness :
  (1 <= length (items (clip 120)))%nat
  /\ exists windows,
       input_iterator (clip 120) = inr windows
       /\ length windows = strides (length (items (clip 120)))
       /\ Forall (fun inp =>
            length (items inp) = 100%nat
            /\ item_shape inp = item_shape (clip 120)) windows.
Proof.
  split; [simpl; lia|].
  apply (windows_full_and_counted (clip 120)). simpl. lia.
Defined.

Lemma cores_tile_the_frames_witness :
  (1 <= length (items (clip 120)))%nat
  /\ exists first windows,
       hd_error (items (clip 120)) = Some first
       /\ input_iterator (clip 120) = inr windows
       /\ concat (map (fun inp => slice 25 75 (items inp)) windows)
          = items (clip 120)
            ++ repeat (last (items (clip 120)) first)
                 (50 * strides (length (items (clip 120)))
                  - length (items (clip 120))).
Proof.
  split; [simpl; lia|].
  apply (cores_tile_the_frames (clip 120)). simpl. lia.
Defined.

Lemma windows_overlap_witness :
  let inp1 := mkArray (repeat 0%nat 25 ++ seq 0 60 ++ repeat 59%nat 15)
                      [27; 48; 3]%nat in
  let inp2 := mkArray (seq 25 35 ++ repeat 59%nat 65) [27; 48; 3]%nat in
  input_iterator (clip 60) = inr [inp1; inp2]
  /\ nth_error [inp1; inp2] 0 = Some inp1
  /\ nth_error [inp1; inp2] 1 = Some inp2
  /\ skipn 50 (items inp1) = firstn 50 (items inp2).
Proof.
  intros inp1 inp2.
  assert (H : input_iterator (clip 60) = inr [inp1; inp2])
    by (vm_compute; reflexivity).
  split; [exact H|]. split; [reflexivity|]. split; [reflexivity|].
  exact (windows_overlap (clip 60) [inp1; inp2] 0 inp1 inp2
           H eq_refl eq_refl).
Defined.

(** ** More on the streaming emitter *)

Section EmitterMore.

Context {frame : Type}.

Lemma events_for_pairs gap predictions indices : forall path p n,
  map end_and_score (events_for path p n gap predictions indices)
  = map (fun i => (gap + Z.of_nat i, nth i predictions 0%Q)) indices.
Proof.
  induction indices as [|i r IH]; intros path p n; [reflexivity|].
  simpl. now rewrite IH.
Qed.

(** [np.where] on the mask of a list reads off its crossings. *)
Lemma where_crossings gap (l : list Q) : forall pre,
  map (fun i => (gap + Z.of_nat i, nth i (pre ++ l) 0%Q))
      (where_from (length pre) (map (fun q => gt q thresh) l))
  = crossings_from (gap + Z.of_nat (length pre)) l.
Proof.
  induction l as [|q r IH]; intros pre; [reflexivity|].
  cbn [map where_from crossings_from]. rewrite map_app.
  f_equal.
  - destruct (gt q thresh); [|reflexivity].
    cbn [map]. now rewrite nth_middle.
  - specialize (IH (pre ++ [q])).
    rewrite <- app_assoc, length_app in IH. cbn [app length] in IH.
    replace (length pre + 1)%nat with (S (length pre)) in IH by lia.
    rewrite IH. f_equal. lia.
Qed.

Lemma window_events_pairs path p n gap predictions :
  map end_and_score
      (events_for path p n gap predictions
         (np_where (map (fun q => gt q thresh) predictions)))
  = crossings_from gap predictions.
Proof.
  rewrite events_for_pairs. unfold np_where.
  pose proof (where_crossings gap predictions []) as H.
  cbn [app length] in H. rewrite Z.add_0_r in H. exact H.
Qed.

Lemma crossings_from_app l1 : forall g l2,
  crossings_from g (l1 ++ l2)
  = crossings_from g l1 ++ crossings_from (g + Z.of_nat (length l1)) l2.
Proof.
  induction l1 as [|q r IH]; intros g l2.
  - simpl. now rewrite Z.add_0_r.
  - cbn [app crossings_from length]. rewrite IH, <- app_assoc.
    do 3 f_equal. lia.
Qed.

Lemma increasing_from_weaken evs lo lo' :
  lo <= lo' -> increasing_from lo' evs -> increasing_from lo evs.
Proof. destruct evs; simpl; [auto|]. intros H [H1 H2]. split; [lia|auto]. Qed.

Lemma increasing_from_app evs1 : forall lo mid evs2,
  lo <= mid ->
  increasing_from lo evs1 ->
  Forall (fun e => end_ e < mid) evs1 ->
  increasing_from mid evs2 ->
  increasing_from lo (evs1 ++ evs2).
Proof.
  induction evs1 as [|e r IH]; intros lo mid evs2 Hle H1 Hb H2.
  - simpl. eapply increasing_from_weaken; eauto.
  - destruct H1 as [Hlo Hr]. inversion Hb; subst. simpl. split; [exact Hlo|].
    apply (IH (end_ e + 1) mid); auto. lia.
Qed.

Lemma events_for_increasing gap predictions mask : forall k path p n,
  increasing_from (gap + Z.of_nat k)
    (events_for path p n gap predictions (where_from k mask)).
Proof.
  induction mask as [|b r IH]; intros k path p n; [exact I|].
  cbn [where_from]. destruct b; cbn [app events_for increasing_from end_].
  - split; [lia|].
    replace (gap + Z.of_nat k + 1) with (gap + Z.of_nat (S k)) by lia.
    apply IH.
  - apply (increasing_from_weaken _ _ (gap + Z.of_nat (S k))); [lia|apply IH].
Qed.

Lemma crossings_from_In l : forall g z q,
  In (z, q) (crossings_from g l)
  <-> exists i, (i < length l)%nat /\ z = g + Z.of_nat i
                /\ q = nth i l 0%Q /\ gt q thresh = true.
Proof.
  induction l as [|a r IH]; intros g z q.
  - simpl. split; [tauto|]. intros (i & Hi & _). lia.
  - cbn [crossings_from]. rewrite in_app_iff, IH. split.
    + intros [H | (i & Hi & Hz & Hq & Hg)].
      * destruct (gt a thresh) eqn:E; [|destruct H].
        destruct H as [H | []]. inversion H; subst.
        exists 0%nat. simpl. repeat split; auto; lia.
      * exists (S i). simpl. repeat split; auto; lia.
    + intros ([|i] & Hi & Hz & Hq & Hg).
      * left. simpl in Hq. subst. rewrite Hg. left. f_equal. lia.
      * right. exists i. simpl in Hi, Hq. repeat split; auto; lia.
Qed.

(** X9: One call of [find_frames_crossing_threshold], with a [gap] for
    which [gap + i] and [cur_frame + 1] stay within the 64-bit integers
    that numpy computes them in: one message for each score above the
    threshold, in the order of the positions, ending at [gap] plus the
    position and carrying the score; the messages follow each other from
    the cursor, and every message queued so far has been delivered when the
    call returns. *)
Theorem crossing_events_of_window (gap : Z) (predictions : list Q)
  (w : world frame) :
  - 2 ^ 63 <= gap ->
  gap + Z.of_nat (length predictions) < 2 ^ 63 ->
  exists w' evs,
    find_frames_crossing_threshold gap predictions w = (inr tt, w')
    /\ delivered (producer w') = produced (producer w) ++ evs
    /\ queue (producer w') = []
    /\ map end_and_score evs = crossings_from gap predictions
    /\ chained (prev_scene (self w)) (scene_number (self w)) evs
    /\ prev_scene (self w') = cursor_after (prev_scene (self w)) evs
    /\ Forall (fun e => - 2 ^ 63 <= end_ e /\ end_ e + 1 < 2 ^ 63) evs.
Proof.
  intros Hlo Hhi.
  destruct (find_frames_crossing_threshold_emits gap predictions w)
    as (w' & Hrun & Hem & Hq).
  eexists w', _. split; [exact Hrun|].
  pose proof (em_produced _ _ _ Hem) as Hp. unfold produced at 1 in Hp.
  rewrite Hq, app_nil_r in Hp.
  split; [exact Hp|]. split; [exact Hq|].
  split; [apply window_events_pairs|].
  split; [exact (em_chained _ _ _ Hem)|].
  split; [exact (em_cursor _ _ _ Hem)|].
  apply Forall_forall. intros e He.
  apply window_events_crossing in He. destruct He as [Hrange _]. lia.
Qed.

(** The windows that the generator hands to [predict_raw] pass its
    assertion as soon as the frames pass that of [predict_frames]. *)
Lemma windows_shape_ok (s : TransNetV2 frame) (frames : ndarray frame)
  windows :
  input_shape_ok s frames -> input_iterator frames = inr windows ->
  Forall (window_shape_ok s) windows.
Proof.
  intros [Hlen Hsize] Hit. unfold input_iterator in Hit.
  destruct (padded_inputs (items frames)); [discriminate|].
  inversion Hit; subst. apply Forall_forall. intros inp Hin.
  apply in_map_iff in Hin. destruct Hin as (out & <- & _).
  unfold window_shape_ok, batch_shape, shape.
  unfold shape in Hlen, Hsize. simpl in *. split; [lia|exact Hsize].
Qed.

(** The messages of the loop, read against the scores it has seen. *)
Lemma window_loop_events (windows : list (ndarray frame)) :
  forall predictions (w : world frame),
  Forall (window_shape_ok (self w)) windows ->
  exists w' evs,
    for_acc frame windows predictions window_step w
    = (inr (predictions ++ map (core_pair (_model (self w))) windows), w')
    /\ emits w w' evs
    /\ increasing_from (50 * Z.of_nat (length predictions)) evs
    /\ Forall (fun e =>
         end_ e < 50 * Z.of_nat (length predictions + length windows)) evs
    /\ (Forall (fun inp =>
          length (core (fst (_model (self w) (items inp)))) = 50%nat) windows ->
        map end_and_score evs
        = crossings_from (50 * Z.of_nat (length predictions))
            (concat (map (fun inp => core (fst (_model (self w) (items inp))))
                         windows))).
Proof.
  induction windows as [|inp r IH]; intros predictions w Hshapes.
  - exists w, []. simpl. rewrite app_nil_r.
    split; [reflexivity|]. split; [apply emits_nil|].
    split; [exact I|]. split; [constructor|reflexivity].
  - inversion Hshapes as [|? ? Hinp Hr]; subst.
    destruct (window_step_run predictions inp w Hinp)
      as (w1 & Hstep & Hem1 & Hq1).
    assert (Hr1 : Forall (window_shape_ok (self w1)) r).
    { eapply Forall_impl; [|exact Hr]. intros a [Ha1 Ha2].
      split; [exact Ha1|]. rewrite (em_size _ _ _ Hem1). exact Ha2. }
    destruct (IH (predictions ++ [core_pair (_model (self w)) inp]) w1 Hr1)
      as (w' & evs2 & Hloop & Hem2 & Hinc & Hends & Hpairs).
    rewrite (em_model _ _ _ Hem1) in Hloop, Hpairs.
    rewrite length_app in Hinc, Hends. cbn [length] in Hinc, Hends.
    set (scores := core (fst (_model (self w) (items inp)))) in *.
    pose proof (core_length_le (fst (_model (self w) (items inp)))) as Hle.
    fold scores in Hle.
    set (evs1 := events_for (video_path (self w)) (prev_scene (self w))
                   (scene_number (self w))
                   (Z.of_nat (length predictions) * 50) scores
                   (np_where (map (fun q => gt q thresh) scores))) in *.
    assert (Hends1 : Forall (fun e =>
              end_ e < 50 * Z.of_nat (length predictions + 1)) evs1).
    { apply Forall_forall. intros e He.
      apply window_events_crossing in He. destruct He as [Hrange _]. lia. }
    exists w', (evs1 ++ evs2). split; [|split; [|split; [|split]]].
    + simpl for_acc. unfold bind. rewrite Hstep, Hloop.
      rewrite <- app_assoc. reflexivity.
    + eapply emits_app; eassumption.
    + apply (increasing_from_app evs1 _
               (50 * Z.of_nat (length predictions + 1))); auto; [lia|].
      pose proof (events_for_increasing (Z.of_nat (length predictions) * 50)
                    scores (map (fun q => gt q thresh) scores) 0
                    (video_path (self w)) (prev_scene (self w))
                    (scene_number (self w))) as H.
      eapply increasing_from_weaken; [|exact H]. lia.
    + apply Forall_app. split.
      * eapply Forall_impl; [|exact Hends1]. cbv beta. cbn [length]. lia.
      * eapply Forall_impl; [|exact Hends]. cbv beta. cbn [length]. lia.
    + intros Hfull. inversion Hfull as [|? ? Hlen Hfull']; subst.
      fold scores in Hlen.
      rewrite map_app, (Hpairs Hfull'). unfold evs1.
      rewrite window_events_pairs. cbn [map concat].
      rewrite crossings_from_app. fold scores. rewrite Hlen, length_app.
      cbn [length]. f_equal; f_equal; lia.
Qed.

End EmitterMore.

(** ** More on the controller *)

Section ControllerMore.

Context {frame : Type}.

Lemma input_shape_ok_dec (s : TransNetV2 frame) (frames : ndarray frame) :
  (length (shape frames) =? 4)%nat
  && list_eqb (skipn 1 (shape frames)) (_input_size s) = true
  <-> input_shape_ok s frames.
Proof.
  unfold input_shape_ok. rewrite andb_true_iff, Nat.eqb_eq, list_eqb_eq.
  reflexivity.
Qed.

(** The messages of a run, read against the scores the loop has seen. *)
Lemma frames_run_events (frames : ndarray frame) (w w_loop w' : world frame)
  windows evs fin :
  input_shape_ok (self w) frames ->
  frames_run frames w w_loop w' windows evs fin ->
  increasing_from 0 evs
  /\ (model_contract (_model (self w)) ->
      map end_and_score evs
      = crossings_from 0
          (concat (map (fun inp => core (fst (_model (self w) (items inp))))
                       windows))).
Proof.
  intros Hshape R.
  assert (Hshapes : Forall (window_shape_ok (self (at_loop_entry frames w)))
                      windows).
  { apply (windows_shape_ok _ frames); [exact Hshape|exact (fr_windows R)]. }
  destruct (window_loop_events windows [] (at_loop_entry frames w) Hshapes)
    as (w2 & evs2 & Hloop & Hem & Hinc & _ & Hpairs).
  rewrite app_nil_l in Hloop. rewrite (fr_loop R) in Hloop.
  inversion Hloop; subst w2.
  assert (E : evs = evs2).
  { pose proof (em_produced _ _ _ Hem) as H2.
    rewrite (em_produced _ _ _ (fr_emits R)) in H2.
    exact (app_inv_head _ _ _ H2). }
  subst evs2. split; [exact Hinc|].
  intros Hmodel. apply Hpairs.
  eapply Forall_impl; [|exact (fr_full R)]. cbv beta. intros inp Hinp.
  apply core_length. exact (proj1 (Hmodel _ Hinp)).
Qed.

Lemma predict_frames_on_no_frames_aux (frames : ndarray frame)
  (w : world frame) :
  input_shape_ok (self w) frames ->
  items frames = [] ->
  predict_frames frames w = (inl IndexError, at_loop_entry frames w)
  /\ at_loop_entry frames w
     = mkWorld {| prev_scene := prev_scene (self w);
                  video_path := video_path (self w);
                  max_frame := 0;
                  scene_number := scene_number (self w);
                  _input_size := _input_size (self w);
                  _model := _model (self w) |} (producer w).
Proof.
  intros Hshape Hempty.
  split; [|unfold at_loop_entry; rewrite Hempty; reflexivity].
  unfold predict_frames.
  rewrite (bind_ok _ _ w (self w) w) by reflexivity.
  rewrite (bind_ok _ _ w tt w)
    by (rewrite (proj2 (input_shape_ok_dec _ _) Hshape); reflexivity).
  rewrite (bind_ok _ _ w tt (at_loop_entry frames w)) by reflexivity.
  apply bind_raise. unfold input_iterator. rewrite Hempty. reflexivity.
Qed.

Lemma predict_frames_refuses_shape_aux (frames : ndarray frame)
  (w : world frame) :
  ~ input_shape_ok (self w) frames ->
  predict_frames frames w = (inl AssertionError, w).
Proof.
  intros Hbad. unfold predict_frames.
  rewrite (bind_ok _ _ w (self w) w) by reflexivity.
  apply bind_raise.
  destruct ((length (shape frames) =? 4)%nat
            && list_eqb (skipn 1 (shape frames)) (_input_size (self w)))
    eqn:E; [|reflexivity].
  exfalso. apply Hbad. now apply input_shape_ok_dec.
Qed.

(** X10: On an array without frames [predict_frames] raises [IndexError]: it
    has recorded [max_frame = 0], and has neither moved the cursor or the
    counter nor handed anything to the producer. *)
Theorem predict_frames_on_no_frames (frames : ndarray frame)
  (w : world frame) :
  input_shape_ok (self w) frames ->
  items frames = [] ->
  exists w',
    predict_frames frames w = (inl IndexError, w')
    /\ max_frame (self w') = 0
    /\ prev_scene (self w') = prev_scene (self w)
    /\ scene_number (self w') = scene_number (self w)
    /\ producer w' = producer w.
Proof.
  intros Hshape Hempty.
  destruct (predict_frames_on_no_frames_aux frames w Hshape Hempty)
    as [Hrun Hw].
  exists (at_loop_entry frames w). split; [exact Hrun|].
  rewrite Hw. repeat split.
Qed.

(** X11: Frames of another shape are refused with [AssertionError] before
    anything is written: the controller and the producer are as before. *)
Theorem predict_frames_refuses_shape (frames : ndarray frame)
  (w : world frame) :
  ~ input_shape_ok (self w) frames ->
  predict_frames frames w = (inl AssertionError, w).
Proof. apply predict_frames_refuses_shape_aux. Qed.

(** X12: What [predict_frames] returns depends on the frames and on the model
    only: the cursor, the counter, the file name and the producer of the
    world it runs in make no difference, whether it returns or raises. *)
Theorem predictions_ignore_emitter_state (frames : ndarray frame)
  (w1 w2 : world frame) :
  _model (self w1) = _model (self w2) ->
  _input_size (self w1) = _input_size (self w2) ->
  fst (predict_frames frames w1) = fst (predict_frames frames w2).
Proof.
  intros Hm Hs.
  destruct ((length (shape frames) =? 4)%nat
            && list_eqb (skipn 1 (shape frames)) (_input_size (self w1)))
    eqn:E.
  - assert (H1 : input_shape_ok (self w1) frames)
      by now apply input_shape_ok_dec.
    assert (H2 : input_shape_ok (self w2) frames).
    { destruct H1 as [Ha Hb]. split; [exact Ha|congruence]. }
    destruct (items frames) as [|first rest] eqn:Ei.
    + destruct (predict_frames_on_no_frames_aux frames w1 H1 Ei) as [-> _].
      destruct (predict_frames_on_no_frames_aux frames w2 H2 Ei) as [-> _].
      reflexivity.
    + assert (Hne : items frames <> []) by congruence.
      destruct (predict_frames_run frames w1 H1 Hne)
        as (wl1 & w1' & ws1 & evs1 & fin1 & R1).
      destruct (predict_frames_run frames w2 H2 Hne)
        as (wl2 & w2' & ws2 & evs2 & fin2 & R2).
      rewrite (fr_result R1), (fr_result R2). cbn [fst].
      assert (Ew : ws1 = ws2).
      { pose proof (fr_windows R1) as A. rewrite (fr_windows R2) in A.
        congruence. }
      subst ws2. rewrite Hm. reflexivity.
  - assert (H1 : ~ input_shape_ok (self w1) frames).
    { intros H. apply input_shape_ok_dec in H. congruence. }
    assert (H2 : ~ input_shape_ok (self w2) frames).
    { intros [Ha Hb]. apply H1. split; [exact Ha|congruence]. }
    rewrite (predict_frames_refuses_shape_aux _ _ H1),
            (predict_frames_refuses_shape_aux _ _ H2).
    reflexivity.
Qed.

(** X13: What a run of [predict_frames] leaves in the controller, from any
    state: the cursor stands at [N + 2], the counter has grown by the
    number of messages produced, [max_frame] is [N]; the file name, the
    input size and the model are as before.  Nothing sets the cursor or
    the counter back. *)
Theorem controller_after_run (frames : ndarray frame) (w : world frame) :
  input_shape_ok (self w) frames ->
  (1 <= length (items frames))%nat ->
  exists result w' evs,
    predict_frames frames w = (inr result, w')
    /\ produced (producer w') = produced (producer w) ++ evs
    /\ prev_scene (self w') = Z.of_nat (length (items frames)) + 2
    /\ scene_number (self w') = scene_number (self w) + Z.of_nat (length evs)
    /\ max_frame (self w') = Z.of_nat (length (items frames))
    /\ video_path (self w') = video_path (self w)
    /\ _input_size (self w') = _input_size (self w)
    /\ _model (self w') = _model (self w).
Proof.
  intros Hshape HN.
  destruct (predict_frames_run frames w Hshape (input_shape_ok_nonempty _ HN))
    as (w_loop & w' & windows & evs & fin & R).
  pose proof (run_messages _ _ _ _ _ _ _ R) as Hem.
  eexists _, w', (evs ++ [fin]).
  split; [exact (fr_result R)|].
  split; [exact (em_produced _ _ _ Hem)|].
  split.
  { rewrite (em_cursor _ _ _ (fr_final R)). simpl. rewrite (fr_end R). lia. }
  split; [exact (em_counter _ _ _ Hem)|].
  split; [exact (fr_max R)|].
  split; [exact (em_path _ _ _ Hem)|].
  split; [exact (em_size _ _ _ Hem)|exact (em_model _ _ _ Hem)].
Qed.

(** X14: When [predict_frames] returns, every message handed to the producer
    before and during the windows has been delivered, and the final
    message, which ends at [N + 1], is the one message still queued:
    [predict_frames] does not flush after it. *)
Theorem final_message_left_queued (frames : ndarray frame)
  (w : world frame) :
  input_shape_ok (self w) frames ->
  (1 <= length (items frames))%nat ->
  exists result w' evs fin,
    predict_frames frames w = (inr result, w')
    /\ delivered (producer w') = produced (producer w) ++ evs
    /\ queue (producer w') = [fin]
    /\ end_ fin = Z.of_nat (length (items frames)) + 1.
Proof.
  intros Hshape HN.
  destruct (predict_frames_run frames w Hshape (input_shape_ok_nonempty _ HN))
    as (w_loop & w' & windows & evs & fin & R).
  pose proof (em_produced _ _ _ (run_messages _ _ _ _ _ _ _ R)) as Hp.
  eexists _, w', evs, fin.
  split; [exact (fr_result R)|]. split; [|split; [exact (fr_queue R)|exact (fr_end R)]].
  unfold produced at 1 in Hp. rewrite (fr_queue R), app_assoc in Hp.
  exact (app_inv_tail _ _ _ Hp).
Qed.

(** X15: The emitter and the stitcher agree: with a model that keeps to its
    contract, the messages before the final one are exactly the crossings
    of the concatenated cores, in order, each ending at the position of
    the score it carries; the returned single-frame sequence is the first
    [N] of those scores.  So a message ends at frame [j < N] exactly when
    the returned score of frame [j] is above the threshold. *)
Theorem events_match_predictions (frames : ndarray frame) (w : world frame) :
  input_shape_ok (self w) frames ->
  (1 <= length (items frames))%nat ->
  model_contract (_model (self w)) ->
  exists windows single_frame_pred all_frames_pred w' evs fin,
    let scores :=
      concat (map (fun inp => core (fst (_model (self w) (items inp))))
                  windows) in
    input_iterator frames = inr windows
    /\ predict_frames frames w
       = (inr (single_frame_pred, all_frames_pred), w')
    /\ produced (producer w') = produced (producer w) ++ evs ++ [fin]
    /\ single_frame_pred = firstn (length (items frames)) scores
    /\ map end_and_score evs = crossings_from 0 scores
    /\ forall j, (j < length (items frames))%nat ->
         ((exists e, In e evs /\ end_ e = Z.of_nat j)
          <-> gt (nth j single_frame_pred 0%Q) thresh = true).
Proof.
  intros Hshape HN Hmodel.
  destruct (predict_frames_run frames w Hshape (input_shape_ok_nonempty _ HN))
    as (w_loop & w' & windows & evs & fin & R).
  destruct (frames_run_events _ _ _ _ _ _ _ Hshape R) as [_ Hpairs].
  specialize (Hpairs Hmodel).
  exists windows. eexists _, _, w', evs, fin. cbv zeta.
  split; [exact (fr_windows R)|]. split; [exact (fr_result R)|].
  split; [exact (em_produced _ _ _ (run_messages _ _ _ _ _ _ _ R))|].
  rewrite !map_map. cbn [core_pair fst].
  set (scores := concat (map (fun inp =>
                   core (fst (_model (self w) (items inp)))) windows)) in *.
  split; [reflexivity|]. split; [exact Hpairs|].
  intros j Hj.
  assert (Hlen : (length (items frames) <= length scores)%nat).
  { unfold scores. rewrite (concat_length_const 50).
    - rewrite length_map, (fr_count R).
      pose proof (strides_cover (length (items frames))). lia.
    - rewrite Forall_map. eapply Forall_impl; [|exact (fr_full R)].
      cbv beta. intros inp Hinp. apply core_length.
      exact (proj1 (Hmodel _ Hinp)). }
  assert (Hnth : nth j (firstn (length (items frames)) scores) 0%Q
                 = nth j scores 0%Q).
  { rewrite <- (firstn_skipn (length (items frames)) scores) at 2.
    rewrite app_nth1; [reflexivity|]. rewrite length_firstn. lia. }
  rewrite Hnth. split.
  - intros (e & Hin & He).
    assert (Hp : In (end_and_score e) (crossings_from 0 scores)).
    { rewrite <- Hpairs. now apply in_map. }
    apply crossings_from_In in Hp.
    destruct Hp as (i & Hi & Hz & Hq & Hg). cbn [end_and_score] in *.
    assert (i = j) by lia. subst i. rewrite <- Hq. exact Hg.
  - intros Hg.
    assert (Hp : In (Z.of_nat j, nth j scores 0%Q) (crossings_from 0 scores)).
    { apply crossings_from_In. exists j. repeat split; auto; lia. }
    rewrite <- Hpairs in Hp. apply in_map_iff in Hp.
    destruct Hp as (e & He & Hin). exists e. split; [exact Hin|].
    unfold end_and_score in He. congruence.
Qed.

Lemma chained_increasing evs : forall p n lo,
  chained p n evs -> increasing_from lo evs -> 0 <= p <= lo ->
  Forall (fun e => 0 <= start e <= end_ e) evs.
Proof.
  induction evs as [|e r IH]; intros p n lo Hc Hi Hp; [constructor|].
  destruct Hc as (Hs & _ & Hr). destruct Hi as [Hlo Hi].
  constructor; [lia|]. apply (IH (end_ e + 1) (n + 1) (end_ e + 1)); auto.
  lia.
Qed.

(** X16: On a controller whose cursor stands at 0, the messages before the
    final one end at strictly increasing frames, and each describes a
    non-empty stretch of frames, [0 <= start <= end]. *)
Theorem events_in_frame_order (frames : ndarray frame) (w : world frame) :
  input_shape_ok (self w) frames ->
  (1 <= length (items frames))%nat ->
  prev_scene (self w) = 0 ->
  exists result w' evs fin,
    predict_frames frames w = (inr result, w')
    /\ produced (producer w') = produced (producer w) ++ evs ++ [fin]
    /\ increasing_from 0 evs
    /\ Forall (fun e => 0 <= start e <= end_ e) evs.
Proof.
  intros Hshape HN Hp.
  destruct (predict_frames_run frames w Hshape (input_shape_ok_nonempty _ HN))
    as (w_loop & w' & windows & evs & fin & R).
  destruct (frames_run_events _ _ _ _ _ _ _ Hshape R) as [Hinc _].
  eexists _, w', evs, fin.
  split; [exact (fr_result R)|].
  split; [exact (em_produced _ _ _ (run_messages _ _ _ _ _ _ _ R))|].
  split; [exact Hinc|].
  pose proof (em_chained _ _ _ (fr_emits R)) as Hc.
  change (prev_scene (self (at_loop_entry frames w)))
    with (prev_scene (self w)) in Hc.
  rewrite Hp in Hc.
  eapply chained_increasing; [exact Hc|exact Hinc|lia].
Qed.

End ControllerMore.

(** ** Whole videos *)

Section VideoFacts.

Context {frame : Type}.
Variable ffmpeg_run : string -> exn + list frame.

(** The stitched sequences of a run under the model's contract. *)
Lemma run_lengths (frames : ndarray frame) (w w_loop w' : world frame)
  windows evs fin :
  frames_run frames w w_loop w' windows evs fin ->
  model_contract (_model (self w)) ->
  exists single_frame_pred all_frames_pred,
    predict_frames frames w
    = (inr (single_frame_pred, all_frames_pred), w')
    /\ length single_frame_pred = length (items frames)
    /\ length all_frames_pred = length (items frames).
Proof.
  intros R Hmodel. eexists _, _. split; [exact (fr_result R)|].
  pose proof (strides_cover (length (items frames))) as Hcover.
  assert (Hcores : forall proj : list Q * list Q -> list Q,
            (proj = fst \/ proj = snd) ->
            length (concat (map proj
                      (map (core_pair (_model (self w))) windows)))
            = (50 * length windows)%nat).
  { intros proj Hproj.
    rewrite (concat_length_const 50); [now rewrite !length_map|].
    rewrite !Forall_map.
    eapply Forall_impl; [|exact (fr_full R)].
    cbv beta. intros inp Hinp. destruct (Hmodel _ Hinp) as [H1 H2].
    destruct Hproj as [-> | ->]; unfold core_pair; simpl;
      apply core_length; assumption. }
  rewrite !length_firstn, !Hcores, (fr_count R) by auto.
  lia.
Qed.

(** One call of [predict_video] on a file that decodes to frames. *)
Lemma predict_video_run (video_fn : string) (fs : list frame)
  (w : world frame) :
  ffmpeg_run video_fn = inr fs ->
  (1 <= length fs)%nat ->
  _input_size (self w) = [27; 48; 3]%nat ->
  exists single_frame_pred all_frames_pred w' evs,
    predict_video ffmpeg_run video_fn w
    = (inr (mkArray fs [27; 48; 3]%nat, single_frame_pred, all_frames_pred),
       w')
    /\ produced (producer w') = produced (producer w) ++ evs
    /\ evs <> []
    /\ Forall (fun e => video e = video_fn) evs
    /\ video_path (self w') = video_fn
    /\ _input_size (self w') = _input_size (self w)
    /\ _model (self w') = _model (self w)
    /\ (model_contract (_model (self w)) ->
        length single_frame_pred = length fs
        /\ length all_frames_pred = length fs).
Proof.
  intros Hdec HN Hsize.
  set (w1 := snd (set_video_path frame video_fn w)).
  set (video := mkArray fs [27; 48; 3]%nat).
  assert (Hshape : input_shape_ok (self w1) video).
  { split; [reflexivity|]. cbn. symmetry. exact Hsize. }
  assert (Hne : items video <> []).
  { cbn. destruct fs; [simpl in HN; lia|discriminate]. }
  destruct (predict_frames_run video w1 Hshape Hne)
    as (w_loop & w' & windows & evs & fin & R).
  pose proof (run_messages _ _ _ _ _ _ _ R) as Hem.
  eexists _, _, w', (evs ++ [fin]).
  split.
  { unfold predict_video.
    rewrite (bind_ok _ _ w tt w1) by reflexivity.
    rewrite (bind_ok _ _ w1 fs w1) by (rewrite Hdec; reflexivity).
    fold video. rewrite (bind_ok _ _ _ _ _ (fr_result R)).
    reflexivity. }
  split; [exact (em_produced _ _ _ Hem)|].
  split; [destruct evs; discriminate|].
  split; [exact (em_video _ _ _ Hem)|].
  split; [exact (em_path _ _ _ Hem)|].
  split; [exact (em_size _ _ _ Hem)|].
  split; [exact (em_model _ _ _ Hem)|].
  intros Hmodel.
  destruct (run_lengths _ _ _ _ _ _ _ R Hmodel) as (s1 & a1 & Hrun & H1 & H2).
  rewrite (fr_result R) in Hrun. inversion Hrun; subst. cbn [fst snd].
  split; assumption.
Qed.

(** X17: [predict_video] labels its messages: every message produced while a
    file is processed carries that file's name, and there is at least
    one. *)
Theorem messages_carry_the_file_name (video_fn : string) (fs : list frame)
  (w : world frame) :
  ffmpeg_run video_fn = inr fs ->
  (1 <= length fs)%nat ->
  _input_size (self w) = [27; 48; 3]%nat ->
  exists result w' evs,
    predict_video ffmpeg_run video_fn w = (inr result, w')
    /\ produced (producer w') = produced (producer w) ++ evs
    /\ evs <> []
    /\ Forall (fun e => video e = video_fn) evs
    /\ video_path (self w') = video_fn.
Proof.
  intros Hdec HN Hsize.
  destruct (predict_video_run video_fn fs w Hdec HN Hsize)
    as (s1 & a1 & w' & evs & Hrun & Hp & Hne & Hv & Hpath & _).
  eexists _, w', evs. repeat split; eauto.
Qed.

(** X18: [main] gets through all its files: when every file decodes to at
    least one frame and the model keeps to its contract, the loop returns,
    for each file in order, one row of predictions per frame and at least
    one scene. *)
Theorem main_processes_every_file (files : list string) :
  forall w : world frame,
  _input_size (self w) = [27; 48; 3]%nat ->
  model_contract (_model (self w)) ->
  Forall (fun file =>
    exists fs, ffmpeg_run file = inr fs /\ (1 <= length fs)%nat) files ->
  exists outs w',
    main_loop ffmpeg_run files w = (inr outs, w')
    /\ Forall2 (fun file out =>
         exists fs, ffmpeg_run file = inr fs
                    /\ length (fst out) = length fs
                    /\ snd out <> []) files outs.
Proof.
  induction files as [|file rest IH]; intros w Hsize Hmodel Hfiles.
  - exists [], w. split; [reflexivity|constructor].
  - inversion Hfiles as [|? ? (fs & Hdec & HN) Hrest]; subst.
    destruct (predict_video_run file fs w Hdec HN Hsize)
      as (s1 & a1 & w1 & evs & Hrun & _ & _ & _ & _ & Hs1 & Hm1 & Hlen).
    destruct (Hlen Hmodel) as [Hl1 Hl2].
    assert (Hsc : exists iv ivs,
              Scenes.predictions_to_scenes s1 thresh = inr (iv :: ivs)).
    { destruct s1 as [|p ps]; [exists (0, -1), []; reflexivity|].
      rewrite ScenesMore.scenes_of_cons. cbv zeta.
      destruct (Scenes.run 1 _ 0 _) as [|iv ivs]; eauto. }
    destruct Hsc as (iv & ivs & Hsc).
    destruct (IH w1) as (outs & w' & Hmain & Hall).
    { congruence. }
    { rewrite Hm1. exact Hmodel. }
    { exact Hrest. }
    exists ((combine s1 a1, iv :: ivs) :: outs), w'. split.
    + cbn [main_loop].
      rewrite (bind_ok _ _ _ _ _ Hrun).
      rewrite (bind_ok _ _ w1 (iv :: ivs) w1) by (rewrite Hsc; reflexivity).
      rewrite (bind_ok _ _ _ _ _ Hmain). reflexivity.
    + constructor; [|exact Hall].
      exists fs. split; [exact Hdec|]. cbn [fst snd].
      split; [|discriminate]. rewrite length_combine. lia.
Qed.

End VideoFacts.

(** ** More concrete runs *)

Lemma cut_at_60_contract : model_contract cut_at_60.
Proof.
  intros window H. unfold cut_at_60. simpl. now rewrite !length_map.
Qed.

Lemma predict_frames_on_no_frames_witness :
  input_shape_ok (self (fresh silent_model)) (clip 0)
  /\ items (clip 0) = []
  /\ exists w',
       predict_frames (clip 0) (fresh silent_model) = (inl IndexError, w')
       /\ max_frame (self w') = 0
       /\ prev_scene (self w') = prev_scene (self (fresh silent_model))
       /\ scene_number (self w') = scene_number (self (fresh silent_model))
       /\ producer w' = producer (fresh silent_model).
Proof.
  split; [apply clip_shape_ok|]. split; [reflexivity|].
  apply (predict_frames_on_no_frames (clip 0) (fresh silent_model)).
  - apply clip_shape_ok.
  - reflexivity.
Defined.

Lemma flat_frames_not_ok :
  ~ input_shape_ok (self (fresh silent_model))
      (mkArray [0; 1; 2]%nat [27; 48]%nat).
Proof. intros [H _]. discriminate. Qed.

Lemma predict_frames_refuses_shape_witness :
  ~ input_shape_ok (self (fresh silent_model))
      (mkArray [0; 1; 2]%nat [27; 48]%nat)
  /\ predict_frames (mkArray [0; 1; 2]%nat [27; 48]%nat) (fresh silent_model)
     = (inl AssertionError, fresh silent_model).
Proof.
  split; [exact flat_frames_not_ok|].
  apply (predict_frames_refuses_shape
           (mkArray [0; 1; 2]%nat [27; 48]%nat) (fresh silent_model)).
  exact flat_frames_not_ok.
Defined.

Lemma after_first_video_size :
  _input_size (self after_first_video) = [27; 48; 3]%nat.
Proof. vm_compute. reflexivity. Qed.

Lemma after_first_video_model :
  _model (self (fresh cut_at_60)) = _model (self after_first_video).
Proof.
  destruct (predict_frames_run (clip 120) (fresh cut_at_60)
              (clip_shape_ok 120 cut_at_60) ltac:(discriminate))
    as (w_loop & w' & windows & evs & fin & R).
  unfold after_first_video. rewrite (fr_result R). cbn [snd].
  symmetry. exact (em_model _ _ _ (run_messages _ _ _ _ _ _ _ R)).
Qed.

Lemma predictions_ignore_emitter_state_witness :
  _model (self (fresh cut_at_60)) = _model (self after_first_video)
  /\ _input_size (self (fresh cut_at_60)) = _input_size (self after_first_video)
  /\ fst (predict_frames (clip 70) (fresh cut_at_60))
     = fst (predict_frames (clip 70) after_first_video).
Proof.
  split; [exact after_first_video_model|].
  split; [rewrite after_first_video_size; reflexivity|].
  apply (predictions_ignore_emitter_state (clip 70)
           (fresh cut_at_60) after_first_video).
  - exact after_first_video_model.
  - rewrite after_first_video_size. reflexivity.
Defined.

Lemma controller_after_run_witness :
  input_shape_ok (self (fresh cut_at_60)) (clip 120)
  /\ (1 <= length (items (clip 120)))%nat
  /\ exists result w' evs,
       predict_frames (clip 120) (fresh cut_at_60) = (inr result, w')
       /\ produced (producer w')
          = produced (producer (fresh cut_at_60)) ++ evs
       /\ prev_scene (self w') = Z.of_nat (length (items (clip 120))) + 2
       /\ scene_number (self w')
          = scene_number (self (fresh cut_at_60)) + Z.of_nat (length evs)
       /\ max_frame (self w') = Z.of_nat (length (items (clip 120)))
       /\ video_path (self w') = video_path (self (fresh cut_at_60))
       /\ _input_size (self w') = _input_size (self (fresh cut_at_60))
       /\ _model (self w') = _model (self (fresh cut_at_60)).
Proof.
  split; [apply clip_shape_ok|]. split; [simpl; lia|].
  apply (controller_after_run (clip 120) (fresh cut_at_60)).
  - apply clip_shape_ok.
  - simpl. lia.
Defined.

Lemma final_message_left_queued_witness :
  input_shape_ok (self (fresh cut_at_60)) (clip 120)
  /\ (1 <= length (items (clip 120)))%nat
  /\ exists result w' evs fin,
       predict_frames (clip 120) (fresh cut_at_60) = (inr result, w')
       /\ delivered (producer w')
          = produced (producer (fresh cut_at_60)) ++ evs
       /\ queue (producer w') = [fin]
       /\ end_ fin = Z.of_nat (length (items (clip 120))) + 1.
Proof.
  split; [apply clip_shape_ok|]. split; [simpl; lia|].
  apply (final_message_left_queued (clip 120) (fresh cut_at_60)).
  - apply clip_shape_ok.
  - simpl. lia.
Defined.

Lemma events_match_predictions_witness :
  input_shape_ok (self (fresh cut_at_60)) (clip 120)
  /\ (1 <= length (items (clip 120)))%nat
  /\ model_contract (_model (self (fresh cut_at_60)))
  /\ exists windows single_frame_pred all_frames_pred w' evs fin,
       let scores :=
         concat (map (fun inp =>
                   core (fst (_model (self (fresh cut_at_60)) (items inp))))
                   windows) in
       input_iterator (clip 120) = inr windows
       /\ predict_frames (clip 120) (fresh cut_at_60)
          = (inr (single_frame_pred, all_frames_pred), w')
       /\ produced (producer w')
          = produced (producer (fresh cut_at_60)) ++ evs ++ [fin]
       /\ single_frame_pred = firstn (length (items (clip 120))) scores
       /\ map end_and_score evs = crossings_from 0 scores
       /\ forall j, (j < length (items (clip 120)))%nat ->
            ((exists e, In e evs /\ end_ e = Z.of_nat j)
             <-> gt (nth j single_frame_pred 0%Q) thresh = true).
Proof.
  split; [apply clip_shape_ok|]. split; [simpl; lia|].
  split; [exact cut_at_60_contract|].
  apply (events_match_predictions (clip 120) (fresh cut_at_60)).
  - apply clip_shape_ok.
  - simpl. lia.
  - exact cut_at_60_contract.
Defined.

Lemma events_in_frame_order_witness :
  input_shape_ok (self (fresh cut_at_60)) (clip 120)
  /\ (1 <= length (items (clip 120)))%nat
  /\ prev_scene (self (fresh cut_at_60)) = 0
  /\ exists result w' evs fin,
       predict_frames (clip 120) (fresh cut_at_60) = (inr result, w')
       /\ produced (producer w')
          = produced (producer (fresh cut_at_60)) ++ evs ++ [fin]
       /\ increasing_from 0 evs
       /\ Forall (fun e => 0 <= start e <= end_ e) evs.
Proof.
  split; [apply clip_shape_ok|]. split; [simpl; lia|].
  split; [reflexivity|].
  apply (events_in_frame_order (clip 120) (fresh cut_at_60)).
  - apply clip_shape_ok.
  - simpl. lia.
  - reflexivity.
Defined.

Lemma messages_carry_the_file_name_witness :
  one_frame_decoder "a"%string = inr [0%nat]
  /\ (1 <= length [0%nat])%nat
  /\ _input_size (self (fresh silent_model)) = [27; 48; 3]%nat
  /\ exists result w' evs,
       predict_video one_frame_decoder "a"%string (fresh silent_model)
       = (inr result, w')
       /\ produced (producer w')
          = produced (producer (fresh silent_model)) ++ evs
       /\ evs <> []
       /\ Forall (fun e => video e = "a"%string) evs
       /\ video_path (self w') = "a"%string.
Proof.
  split; [reflexivity|]. split; [simpl; lia|]. split; [reflexivity|].
  apply (messages_carry_the_file_name one_frame_decoder "a"%string [0%nat]
           (fresh silent_model)).
  - reflexivity.
  - simpl. lia.
  - reflexivity.
Defined.

Lemma one_frame_decoder_decodes (files : list string) :
  Forall (fun file =>
    exists fs, one_frame_decoder file = inr fs /\ (1 <= length fs)%nat) files.
Proof.
  apply Forall_forall. intros file _. exists [0%nat].
  split; [reflexivity|simpl; lia].
Qed.

Lemma main_processes_every_file_witness :
  _input_size (self (fresh silent_model)) = [27; 48; 3]%nat
  /\ model_contract (_model (self (fresh silent_model)))
  /\ Forall (fun file =>
       exists fs, one_frame_decoder file = inr fs /\ (1 <= length fs)%nat)
       ["a"; "b"]%string
  /\ exists outs w',
       main_loop one_frame_decoder ["a"; "b"]%string (fresh silent_model)
       = (inr outs, w')
       /\ Forall2 (fun file out =>
            exists fs, one_frame_decoder file = inr fs
                       /\ length (fst out) = length fs
                       /\ snd out <> []) ["a"; "b"]%string outs.
Proof.
  split; [reflexivity|]. split; [exact silent_model_contract|].
  split; [apply one_frame_decoder_decodes|].
  apply (main_processes_every_file one_frame_decoder ["a"; "b"]%string
           (fresh silent_model)).
  - reflexivity.
  - exact silent_model_contract.
  - apply one_frame_decoder_decodes.
Defined.

(** Three scores seen by the second window of a video. *)
Lemma crossing_events_of_window_witness :
  - 2 ^ 63 <= 50
  /\ 50 + Z.of_nat (length [0; 9 # 10; 4 # 5]%Q) < 2 ^ 63
  /\ exists w' evs,
       find_frames_crossing_threshold 50 [0; 9 # 10; 4 # 5]%Q
         (fresh silent_model) = (inr tt, w')
       /\ delivered (producer w')
          = produced (producer (fresh silent_model)) ++ evs
       /\ queue (producer w') = []
       /\ map end_and_score evs
          = crossings_from 50 [0; 9 # 10; 4 # 5]%Q
       /\ chained (prev_scene (self (fresh silent_model)))
            (scene_number (self (fresh silent_model))) evs
       /\ prev_scene (self w')
          = cursor_after (prev_scene (self (fresh silent_model))) evs
       /\ Forall (fun e => - 2 ^ 63 <= end_ e /\ end_ e + 1 < 2 ^ 63) evs.
Proof.
  assert (H1 : - 2 ^ 63 <= 50) by lia.
  assert (H2 : 50 + Z.of_nat (length [0; 9 # 10; 4 # 5]%Q) < 2 ^ 63)
    by (simpl; lia).
  split; [exact H1|]. split; [exact H2|].
  exact (crossing_events_of_window 50 [0; 9 # 10; 4 # 5]%Q
           (fresh silent_model) H1 H2).
Defined.
